(** * fund-app: the fund data server and the multi-source fetcher

    A shallow embedding of [scripts/fund_server.py] (the cache, the three
    source adapters, [get_fund_data], [get_funds]) and of
    [FundAPI.fetch_fund_data] in [scripts/fund_api.py], with the properties
    the specification states about them.

    Conventions.
    - A Python [float] is a primitive binary64 float; the integer literal [0]
      that initialises a numeric field of the result is kept apart from the
      float a source writes there ([num]).
    - A Python [str] is a [string]; a character stands for the code point of
      the same number (code points below 256).
    - A value read out of a JSON document and copied as it is (['name'],
      ['gztime'], ...) is a [pyval].
    - The module level [cache] and the calls made to the upstream sources are
      the state [World]; what the environment answers (clock readings, what
      each request produces) is an explicit argument [Env]. *)

From Stdlib Require Import ZArith String Ascii List Floats Lia.
From stdpp Require Import gmap strings list.

Local Open Scope string_scope.
Local Open Scope list_scope.
Local Open Scope Z_scope.

(** ** Python values *)

(** A number: an [int] or a [float]. *)
Inductive num : Type :=
  | Int (z : Z)
  | Float (f : float).

(** A JSON value as [json.loads] returns it. *)
#[warnings="-register-all"]
Inductive pyval : Type :=
  | PNone
  | PBool (b : bool)
  | PNum (n : num)
  | PStr (s : string)
  | PList (l : list pyval)
  | PDict (d : list (string * pyval)).

(** [x > 0] for a number; a NaN compares false. *)
Definition gt0 (x : num) : bool :=
  match x with
  | Int z => 0 <? z
  | Float f => (0 <? f)%float
  end.

(** [x <= 0] for a number. *)
Definition le0 (x : num) : bool :=
  match x with
  | Int z => z <=? 0
  | Float f => (f <=? 0)%float
  end.

(** [bool(v)]. *)
Definition truthy (v : pyval) : bool :=
  match v with
  | PNone => false
  | PBool b => b
  | PNum (Int z) => negb (z =? 0)
  | PNum (Float f) => negb (f =? 0)%float
  | PStr s => negb (String.eqb s "")
  | PList l => match l with [] => false | _ => true end
  | PDict d => match d with [] => false | _ => true end
  end.

(** [a or b]. *)
Definition py_or (a b : pyval) : pyval := if truthy a then a else b.

(** A computation that returns a value or raises; [e] is [str(e)]. *)
Inductive Outcome (A : Type) : Type :=
  | Ok (a : A)
  | Raise (e : string).
Arguments Ok {A} a.
Arguments Raise {A} e.

#[global] Instance Outcome_ret : MRet Outcome := fun A (a : A) => Ok a.

#[global] Instance Outcome_bind : MBind Outcome :=
  fun A B (k : A -> Outcome B) (o : Outcome A) =>
    match o with
    | Ok a => k a
    | Raise e => Raise e
    end.

(** ** The dicts the three sources return *)

(** [fetch_tiantian_estimate]: the numeric keys went through [float(...)]. *)
Record EstimateDict : Type := {
  est_code : pyval;
  est_name : pyval;
  est_dwjz : float;
  est_gsz : float;
  est_gszzl : float;
  est_gztime : pyval;
}.

(** [fetch_eastmoney_nav]. *)
Record NavDict : Type := {
  nav_dwjz : float;
  nav_ljjz : float;
  nav_jzzzl : float;
  nav_fsrq : pyval;
}.

(** [fetch_eastmoney_detail]. *)
Record DetailDict : Type := {
  det_code : pyval;
  det_name : pyval;
  det_type : pyval;
  det_dwjz : float;
  det_gsz : float;
  det_gszzl : float;
  det_gztime : pyval;
  det_pdate : pyval;
}.

(** ** The dict literals of the adapters (lines 63-70, 93-98, 120-129) *)

(** A JSON object is the list of its pairs, in the order of the document;
    [json.loads] keeps the last pair of a key. *)
Definition dict_lookup (d : list (string * pyval)) (key : string) : option pyval :=
  foldl (fun found kv => if String.eqb kv.1 key then Some kv.2 else found) None d.

(** [d.get(key, default)]. *)
Definition dict_get (d : list (string * pyval)) (key : string) (dflt : pyval) : pyval :=
  match dict_lookup d key with
  | Some v => v
  | None => dflt
  end.

(** [float(z)] for an [int]: the nearest float, [OverflowError] beyond the
    range. *)
Definition float_of_int (z : Z) : Outcome float :=
  let f := SF2Prim (binary_normalize prec emax z 0 false) in
  if is_infinity f then Raise "OverflowError" else Ok f.

Section Parsing.

(** [float(s)] for a [str]: the value, or [None] where it raises
    [ValueError]. *)
Variable float_of_str : string -> option float.

(** [float(v)]. *)
Definition py_float (v : pyval) : Outcome float :=
  match v with
  | PNum (Int z) => float_of_int z
  | PNum (Float f) => Ok f
  | PBool b => Ok (if b then 1%float else 0%float)
  | PStr s =>
      match float_of_str s with
      | Some f => Ok f
      | None => Raise "ValueError"
      end
  | PNone | PList _ | PDict _ => Raise "TypeError"
  end.

(** [float(d.get(key, 0) or 0)]: a missing, null, empty or zero value
    becomes [0.0]. *)
Definition float_or_0 (d : list (string * pyval)) (key : string) : Outcome float :=
  py_float (py_or (dict_get d key (PNum (Int 0))) (PNum (Int 0))).

(** Lines 63-70, on the object [data]. *)
Definition estimate_dict (code : string) (data : list (string * pyval))
    : Outcome EstimateDict :=
  dwjz ← float_or_0 data "dwjz";
  gsz ← float_or_0 data "gsz";
  gszzl ← float_or_0 data "gszzl";
  mret {| est_code := dict_get data "fundcode" (PStr code);
          est_name := dict_get data "name" (PStr "");
          est_dwjz := dwjz;
          est_gsz := gsz;
          est_gszzl := gszzl;
          est_gztime := dict_get data "gztime" (PStr "") |}.

(** Lines 93-98, on the object [latest]. *)
Definition nav_dict (latest : list (string * pyval)) : Outcome NavDict :=
  dwjz ← float_or_0 latest "DWJZ";
  ljjz ← float_or_0 latest "LJJZ";
  jzzzl ← float_or_0 latest "JZZZL";
  mret {| nav_dwjz := dwjz;
          nav_ljjz := ljjz;
          nav_jzzzl := jzzzl;
          nav_fsrq := dict_get latest "FSRQ" (PStr "") |}.

(** Lines 120-129, on the object [d]. *)
Definition detail_dict (code : string) (d : list (string * pyval))
    : Outcome DetailDict :=
  dwjz ← float_or_0 d "DWJZ";
  gsz ← float_or_0 d "GSZ";
  gszzl ← float_or_0 d "GSZZL";
  mret {| det_code := dict_get d "FCODE" (PStr code);
          det_name := dict_get d "SHORTNAME" (PStr "");
          det_type := dict_get d "FTYPE" (PStr "");
          det_dwjz := dwjz;
          det_gsz := gsz;
          det_gszzl := gszzl;
          det_gztime := dict_get d "GZTIME" (PStr "");
          det_pdate := dict_get d "PDATE" (PStr "") |}.

End Parsing.

(** ** The merged record, [result] in [get_fund_data] *)

Record Sources : Type := {
  src_estimate : bool;
  src_nav : bool;
  src_detail : bool;
}.

Record FundResult : Type := {
  res_code : string;
  res_name : pyval;
  res_type : pyval;
  res_nav : num;
  res_navDate : pyval;
  res_navChange : num;
  res_estimate : num;
  res_estimateTime : pyval;
  res_estimateChange : num;
  res_currentValue : num;
  res_dayChange : num;
  res_sources : Sources;
  res_updateTime : string;
}.

(** [x is not None]. *)
Definition is_not_None {A} (x : option A) : bool :=
  match x with Some _ => true | None => false end.

(** The dict literal of lines 156-178. [now] is
    [datetime.now().strftime('%Y-%m-%d %H:%M:%S')]. *)
Definition initial_result (code : string)
    (estimate : option EstimateDict) (nav : option NavDict)
    (detail : option DetailDict) (now : string) : FundResult :=
  {| res_code := code;
     res_name := PStr "";
     res_type := PStr "";
     res_nav := Int 0;
     res_navDate := PStr "";
     res_navChange := Int 0;
     res_estimate := Int 0;
     res_estimateTime := PStr "";
     res_estimateChange := Int 0;
     res_currentValue := Int 0;
     res_dayChange := Int 0;
     res_sources := {| src_estimate := is_not_None estimate;
                       src_nav := is_not_None nav;
                       src_detail := is_not_None detail |};
     res_updateTime := now |}.

(** [if detail: ...] (lines 181-186). A returned dict has keys, so it is
    true exactly when it is not [None]; every key read is present, so no
    default of [.get] is used. *)
Definition fill_detail (detail : option DetailDict) (r : FundResult) : FundResult :=
  match detail with
  | Some d =>
      {| res_code := res_code r;
         res_name := det_name d;
         res_type := det_type d;
         res_nav := res_nav r;
         res_navDate := res_navDate r;
         res_navChange := res_navChange r;
         res_estimate := Float (det_gsz d);
         res_estimateTime := det_gztime d;
         res_estimateChange := Float (det_gszzl d);
         res_currentValue := res_currentValue r;
         res_dayChange := res_dayChange r;
         res_sources := res_sources r;
         res_updateTime := res_updateTime r |}
  | None => r
  end.

(** [if estimate: ...] (lines 188-192). *)
Definition fill_estimate (estimate : option EstimateDict) (r : FundResult) : FundResult :=
  match estimate with
  | Some e =>
      {| res_code := res_code r;
         res_name := py_or (res_name r) (est_name e);
         res_type := res_type r;
         res_nav := res_nav r;
         res_navDate := res_navDate r;
         res_navChange := res_navChange r;
         res_estimate := Float (est_gsz e);
         res_estimateTime := est_gztime e;
         res_estimateChange := Float (est_gszzl e);
         res_currentValue := res_currentValue r;
         res_dayChange := res_dayChange r;
         res_sources := res_sources r;
         res_updateTime := res_updateTime r |}
  | None => r
  end.

(** [if nav: ...] (lines 194-197). *)
Definition fill_nav (nav : option NavDict) (r : FundResult) : FundResult :=
  match nav with
  | Some n =>
      {| res_code := res_code r;
         res_name := res_name r;
         res_type := res_type r;
         res_nav := Float (nav_dwjz n);
         res_navDate := nav_fsrq n;
         res_navChange := Float (nav_jzzzl n);
         res_estimate := res_estimate r;
         res_estimateTime := res_estimateTime r;
         res_estimateChange := res_estimateChange r;
         res_currentValue := res_currentValue r;
         res_dayChange := res_dayChange r;
         res_sources := res_sources r;
         res_updateTime := res_updateTime r |}
  | None => r
  end.

Definition set_current (value change : num) (r : FundResult) : FundResult :=
  {| res_code := res_code r;
     res_name := res_name r;
     res_type := res_type r;
     res_nav := res_nav r;
     res_navDate := res_navDate r;
     res_navChange := res_navChange r;
     res_estimate := res_estimate r;
     res_estimateTime := res_estimateTime r;
     res_estimateChange := res_estimateChange r;
     res_currentValue := value;
     res_dayChange := change;
     res_sources := res_sources r;
     res_updateTime := res_updateTime r |}.

(** The recommended value (lines 199-205): the published value first. *)
Definition recommend (r : FundResult) : FundResult :=
  if gt0 (res_nav r) then set_current (res_nav r) (res_navChange r) r
  else if gt0 (res_estimate r) then set_current (res_estimate r) (res_estimateChange r) r
  else r.

(** Lines 155-205 of [get_fund_data]: the merge of the three outcomes. *)
Definition merge (code : string)
    (estimate : option EstimateDict) (nav : option NavDict)
    (detail : option DetailDict) (now : string) : FundResult :=
  recommend
    (fill_nav nav
       (fill_estimate estimate
          (fill_detail detail
             (initial_result code estimate nav detail now)))).

(** ** The cache (lines 30-52) *)

Record CacheItem : Type := {
  data : FundResult;
  timestamp : float;
}.

(** [CACHE_TTL = 30]; the comparison with a float is the one with [30.0]. *)
Definition CACHE_TTL : float := 30%float.

(** The upstream sources: the three of the server, and the fourth one
    [FundAPI] also asks. *)
Inductive Source : Type :=
  | Tiantian
  | EastmoneyNav
  | EastmoneyDetail
  | Ant.

#[global] Instance Source_eq_dec : EqDecision Source.
Proof. solve_decision. Defined.

(** The state: the module level [cache], and the requests sent upstream so
    far (the source and the fund code), oldest first. *)
Record World : Type := {
  cache : gmap string CacheItem;
  requests : list (Source * string);
}.

(** The body of [get_cached]; [now] is its reading of [time.time()]. *)
Definition get_cached (key : string) (now : float)
    (c : gmap string CacheItem) : option FundResult :=
  match c !! key with
  | Some item =>
      if (now - timestamp item <? CACHE_TTL)%float then Some (data item) else None
  | None => None
  end.

(** The body of [set_cache]; [now] is its reading of [time.time()]. *)
Definition set_cache (key : string) (d : FundResult) (now : float)
    (c : gmap string CacheItem) : gmap string CacheItem :=
  <[key := {| data := d; timestamp := now |}]> c.

(** ** State passing *)

Definition M (A : Type) : Type := World -> A * World.

#[global] Instance M_ret : MRet M := fun A (a : A) w => (a, w).

#[global] Instance M_bind : MBind M :=
  fun A B (k : A -> M B) (m : M A) w => let (a, w') := m w in k a w'.

Definition read_cache : M (gmap string CacheItem) := fun w => (cache w, w).

Definition write_cache (c : gmap string CacheItem) : M unit :=
  fun w => (tt, {| cache := c; requests := requests w |}).

Definition send_request (s : Source) (code : string) : M unit :=
  fun w => (tt, {| cache := cache w; requests := requests w ++ [(s, code)] |}).

(** ** The source adapters (lines 55-132) *)

(** What the [try] block of an adapter does once the request is sent: it
    returns a dict, it reaches the end without returning (no match, an empty
    list), or it raises. *)
Inductive Body (R : Type) : Type :=
  | Returns (r : R)
  | FallsThrough
  | Raises (e : string).
Arguments Returns {R} r.
Arguments FallsThrough {R}.
Arguments Raises {R} e.

(** [try: ... except Exception: print(...)] followed by [return None]. *)
Definition try_or_None {R} (b : Body R) : option R :=
  match b with
  | Returns r => Some r
  | FallsThrough => None
  | Raises _ => None
  end.

(** The body reached its dict literal, which returned or raised. *)
Definition reached {R} (o : Outcome R) : Body R :=
  match o with
  | Ok r => Returns r
  | Raise e => Raises e
  end.

(** What the environment answers during one call of [get_fund_data]. *)
Record Env : Type := {
  time_get_cached : float;
  body_estimate : Body EstimateDict;
  body_nav : Body NavDict;
  body_detail : Body DetailDict;
  datetime_now : string;
  time_set_cache : float;
}.

Definition fetch_tiantian_estimate (env : Env) (code : string) : M (option EstimateDict) :=
  send_request Tiantian code ;; mret (try_or_None (body_estimate env)).

Definition fetch_eastmoney_nav (env : Env) (code : string) : M (option NavDict) :=
  send_request EastmoneyNav code ;; mret (try_or_None (body_nav env)).

Definition fetch_eastmoney_detail (env : Env) (code : string) : M (option DetailDict) :=
  send_request EastmoneyDetail code ;; mret (try_or_None (body_detail env)).

(** ** [get_fund_data] (lines 135-208) *)

(** The three requests of one run of the pipeline, in the order the futures
    are submitted. *)
Definition sent (code : string) : list (Source * string) :=
  [(Tiantian, code); (EastmoneyNav, code); (EastmoneyDetail, code)].

(** What one run of the pipeline produces in the environment [env]. *)
Definition fetched (env : Env) (code : string) : FundResult :=
  merge code (try_or_None (body_estimate env)) (try_or_None (body_nav env))
        (try_or_None (body_detail env)) (datetime_now env).

Definition cache_key (code : string) : string := ("fund_" ++ code)%string.

(** Lines 140-141: the key and the locked lookup. *)
Definition lookup_cached (env : Env) (code : string) : M (option FundResult) :=
  c ← read_cache;
  mret (get_cached (cache_key code) (time_get_cached env) c).

(** Lines 146-205: the three sources are asked and their outcomes merged. *)
Definition fetch_and_merge (env : Env) (code : string) : M FundResult :=
  estimate ← fetch_tiantian_estimate env code;
  nav ← fetch_eastmoney_nav env code;
  detail ← fetch_eastmoney_detail env code;
  mret (merge code estimate nav detail (datetime_now env)).

(** Line 207: the locked store. *)
Definition store_result (env : Env) (code : string) (r : FundResult) : M unit :=
  c ← read_cache;
  write_cache (set_cache (cache_key code) r (time_set_cache env) c).

(** [if cached:] holds for every cached value, a dict with thirteen keys. *)
Definition get_fund_data (env : Env) (code : string) : M FundResult :=
  cached ← lookup_cached env code;
  match cached with
  | Some r => mret r
  | None =>
      r ← fetch_and_merge env code;
      store_result env code r;;
      mret r
  end.

(** ** Concurrent calls of [get_fund_data]

    [cache_lock] makes the lookup and the store atomic; nothing is held
    between them. A call is therefore three atomic steps, and concurrent
    calls interleave at the step. *)

Inductive Pc : Type :=
  | AtLookup
  | AtFetch
  | AtStore (r : FundResult)
  | Returned (r : FundResult).

Definition step_call (env : Env) (code : string) (p : Pc) : M Pc :=
  match p with
  | AtLookup =>
      cached ← lookup_cached env code;
      mret (match cached with Some r => Returned r | None => AtFetch end)
  | AtFetch =>
      r ← fetch_and_merge env code;
      mret (AtStore r)
  | AtStore r =>
      store_result env code r;;
      mret (Returned r)
  | Returned r => mret (Returned r)
  end.

Record Call : Type := {
  call_env : Env;
  call_code : string;
  call_pc : Pc;
}.

Definition new_call (env : Env) (code : string) : Call :=
  {| call_env := env; call_code := code; call_pc := AtLookup |}.

Definition with_pc (c : Call) (p : Pc) : Call :=
  {| call_env := call_env c; call_code := call_code c; call_pc := p |}.

(** The call number [i] takes its next step. *)
Definition step_at (i : nat) (calls : list Call) : M (list Call) :=
  match calls !! i with
  | Some c =>
      p ← step_call (call_env c) (call_code c) (call_pc c);
      mret (<[i := with_pc c p]> calls)
  | None => mret calls
  end.

(** A schedule names the call that moves at each step. *)
Fixpoint run (schedule : list nat) (calls : list Call) : M (list Call) :=
  match schedule with
  | [] => mret calls
  | i :: rest => calls' ← step_at i calls; run rest calls'
  end.

(** Every call has at least its three steps in the schedule. *)
Definition scheduled_to_completion (n : nat) (schedule : list nat) : bool :=
  forallb (fun i => (3 <=? count_occ Nat.eq_dec schedule i)%nat) (seq 0 n).

(** Every call looks up, then every call fetches, then every call stores. *)
Definition lockstep (n : nat) : list nat := seq 0 n ++ seq 0 n ++ seq 0 n.

Definition result_of (c : Call) : option FundResult :=
  match call_pc c with Returned r => Some r | _ => None end.

Definition all_returned (calls : list Call) : Prop :=
  Forall (fun c => is_Some (result_of c)) calls.

(** The runs of the fetch and merge pipeline for [code] recorded in the
    state: each one sends exactly one request to [Tiantian]. *)
Definition pipeline_runs (code : string) (w : World) : nat :=
  length (List.filter
            (fun q => match q with
                      | (Tiantian, c) => String.eqb c code
                      | _ => false
                      end) (requests w)).

(** The record is the one some call of the group produced. *)
Definition fetched_by_a_call (code : string) (envs : list Env) (r : FundResult) : Prop :=
  exists env, env ∈ envs /\ r = fetched env code.

(** *** What every interleaving preserves *)

Definition waiting (c : Call) : bool :=
  match call_pc c with
  | AtLookup | AtFetch => true
  | _ => false
  end.

Definition count_waiting (calls : list Call) : nat :=
  length (List.filter waiting calls).

Definition rank (p : Pc) : nat :=
  match p with
  | AtLookup => 0
  | AtFetch => 1
  | AtStore _ => 2
  | Returned _ => 3
  end.

Definition holds_fetched (code : string) (envs : list Env) (p : Pc) : Prop :=
  match p with
  | AtStore r | Returned r => fetched_by_a_call code envs r
  | _ => True
  end.

(** The calls [calls], started from [w0] in the environments [envs], have
    reached the state [w]. *)
Record inv (code : string) (envs : list Env) (w0 : World)
    (calls : list Call) (w : World) : Prop := {
  inv_shape :
    Forall2 (fun env c => call_env c = env /\ call_code c = code) envs calls;
  inv_mono : (pipeline_runs code w0 <= pipeline_runs code w)%nat;
  inv_upper :
    (pipeline_runs code w + count_waiting calls
     <= pipeline_runs code w0 + length envs)%nat;
  inv_lower :
    (Forall (fun c => call_pc c = AtLookup) calls
     /\ cache w !! cache_key code = cache w0 !! cache_key code)
    \/ Exists (fun c => call_pc c = AtFetch) calls
    \/ (pipeline_runs code w0 < pipeline_runs code w)%nat;
  inv_cache :
    cache w !! cache_key code = cache w0 !! cache_key code
    \/ exists item, cache w !! cache_key code = Some item
                    /\ fetched_by_a_call code envs (data item);
  inv_results : Forall (fun c => holds_fetched code envs (call_pc c)) calls;
}.

(** One step of every call of [todo], in order. *)
Fixpoint sweep (todo : list Call) (w : World) : list Call * World :=
  match todo with
  | [] => ([], w)
  | c :: rest =>
      let (p, w1) := step_call (call_env c) (call_code c) (call_pc c) w in
      let (cs, w2) := sweep rest w1 in
      (with_pc c p :: cs, w2)
  end.

(** One call per environment, each at the step [p] gives. *)
Definition at_pc (code : string) (p : Env -> Pc) (envs : list Env) : list Call :=
  (fun env => with_pc (new_call env code) (p env)) <$> envs.

(** The cache after each call of the group has stored its own record. *)
Definition stored (code : string) (envs : list Env) (c : gmap string CacheItem)
    : gmap string CacheItem :=
  foldl (fun c env => set_cache (cache_key code) (fetched env code)
                                (time_set_cache env) c) c envs.

(** *** When every call looks up before any call stores *)

(** Some prefix of the schedule has the lookup of every call and the store
    of none: each of the [n] calls moves once or twice in it. *)
Definition lookups_before_stores (n : nat) (schedule : list nat) : bool :=
  existsb
    (fun k =>
       forallb (fun j =>
                  (1 <=? count_occ Nat.eq_dec (take k schedule) j)%nat
                  && (count_occ Nat.eq_dec (take k schedule) j <=? 2)%nat)
               (seq 0 n))
    (seq 0 (S (length schedule))).

(** The record a call holds is the one of its own fetch. *)
Definition holds_own_fetch (c : Call) : Prop :=
  match call_pc c with
  | AtStore r | Returned r => r = fetched (call_env c) (call_code c)
  | _ => True
  end.

(** Every call of the group fetches: none is served from the cache. *)
Definition all_fetch (code : string) (envs : list Env) (w0 : World)
    (calls : list Call) (w : World) : Prop :=
  Forall2 (fun env c => call_env c = env /\ call_code c = code) envs calls
  /\ (pipeline_runs code w + count_waiting calls
      = pipeline_runs code w0 + length envs)%nat
  /\ Forall holds_own_fetch calls.

(** No call has stored, and none will in the moves of [todo]. *)
Definition before_stores (code : string) (w0 : World) (todo : list nat)
    (calls : list Call) (w : World) : Prop :=
  cache w !! cache_key code = cache w0 !! cache_key code
  /\ forall j c, calls !! j = Some c ->
       (rank (call_pc c) + count_occ Nat.eq_dec todo j <= 2)%nat.

(** ** [get_funds] (lines 223-254) *)

(** [s.split(',')]. *)
Fixpoint split_comma (s : string) : list string :=
  match s with
  | EmptyString => [EmptyString]
  | String c rest =>
      if Ascii.eqb c "," then EmptyString :: split_comma rest
      else match split_comma rest with
           | piece :: pieces => String c piece :: pieces
           | [] => [String c EmptyString]
           end
  end.

(** [c.isspace()] for a code point below 256. *)
Definition is_space (c : ascii) : bool :=
  let n := N_of_ascii c in
  ((9 <=? n) && (n <=? 13) || (28 <=? n) && (n <=? 32)
   || (n =? 133) || (n =? 160))%N.

Fixpoint lstrip (s : string) : string :=
  match s with
  | EmptyString => EmptyString
  | String c rest => if is_space c then lstrip rest else s
  end.

Fixpoint rstrip (s : string) : string :=
  match s with
  | EmptyString => EmptyString
  | String c rest =>
      match rstrip rest with
      | EmptyString => if is_space c then EmptyString else String c EmptyString
      | rest' => String c rest'
      end
  end.

(** [s.strip()]. *)
Definition strip (s : string) : string := rstrip (lstrip s).

(** [bool(s)] for a string. *)
Definition nonempty (s : string) : bool := negb (String.eqb s "").

(** Lines 226-227. [param] is [request.args] at ['codes'], if given. *)
Definition parse_codes (param : option string) : list string :=
  let codes := split_comma (default "" param) in
  strip <$> List.filter (fun c => nonempty (strip c)) codes.

(** An entry that is empty or made of white space only. *)
Fixpoint blank (s : string) : bool :=
  match s with
  | EmptyString => true
  | String c rest => is_space c && blank rest
  end.

(** A parameter made of commas and white space only. *)
Fixpoint only_commas_and_blanks (s : string) : bool :=
  match s with
  | EmptyString => true
  | String c rest => (Ascii.eqb c "," || is_space c) && only_commas_and_blanks rest
  end.

(** A value of [results]: a merged record, or [{'error': str(e)}]. *)
Inductive Entry : Type :=
  | Data (r : FundResult)
  | Error (e : string).

(** The two messages of a refused request: line 232 and line 238. *)
Inductive Refusal : Type :=
  | NoCodes
  | TooManyCodes.

(** The body of the JSON answer. *)
Inductive Response : Type :=
  | Failure (error : Refusal)
  | Success (results : gmap string Entry).

Definition entry_of (o : Outcome FundResult) : Entry :=
  match o with
  | Ok r => Data r
  | Raise e => Error e
  end.

(** Lines 244-249: the futures are read in their order of insertion. *)
Definition collect (futures : list (string * Outcome FundResult))
    : gmap string Entry :=
  foldl (fun results f => <[f.1 := entry_of f.2]> results) ∅ futures.

(** The outcome of the last future submitted for [code]. *)
Fixpoint outcome_for (code : string) (futures : list (string * Outcome FundResult))
    : option (Outcome FundResult) :=
  match futures with
  | [] => None
  | f :: rest =>
      match outcome_for code rest with
      | Some o => Some o
      | None => if decide (f.1 = code) then Some f.2 else None
      end
  end.

Section Batch.

(** Lines 242-243 and the end of the [with] block: the executor runs one
    worker per code and the block is left when every worker is done.
    [pool codes] is what that leaves: the state, and the futures in the
    order of submission, each with its code and what [result()] gives. *)
Variable pool : list string -> M (list (string * Outcome FundResult)).

Definition get_funds (param : option string) : M Response :=
  let codes := parse_codes param in
  match codes with
  | [] => mret (Failure NoCodes)
  | _ =>
      if (50 <? length codes)%nat then mret (Failure TooManyCodes)
      else
        futures ← pool codes;
        mret (Success (collect futures))
  end.

End Batch.

(** *** The workers of a batch (lines 242-249)

    A worker runs [get_fund_data(code)] in a thread of the pool; the workers
    share the cache and interleave at the steps of their calls. Lines
    146-153 can raise (the executor cannot start a thread, a [print] of an
    adapter fails); the locked lookup and the locked store cannot. *)

(** The exception that leaves the fetch of a worker, and how many of its
    three requests are out by then. *)
Record Fault : Type := {
  fault_sent : nat;
  fault_error : string;
}.

(** What a worker has reached: a step of its call, or the exception that
    ended it. *)
Inductive Progress : Type :=
  | Calling (p : Pc)
  | Raised (e : string).

Record Worker : Type := {
  worker_env : Env;
  worker_fault : option Fault;
  worker_code : string;
  worker_at : Progress;
}.

Definition new_worker (env : Env) (fault : option Fault) (code : string) : Worker :=
  {| worker_env := env; worker_fault := fault; worker_code := code;
     worker_at := Calling AtLookup |}.

Definition with_at (k : Worker) (a : Progress) : Worker :=
  {| worker_env := worker_env k; worker_fault := worker_fault k;
     worker_code := worker_code k; worker_at := a |}.

(** The next step of a worker. *)
Definition step_worker (k : Worker) : M Progress :=
  match worker_at k with
  | Raised e => mret (Raised e)
  | Calling AtFetch =>
      match worker_fault k with
      | Some f =>
          fun w => (Raised (fault_error f),
                    {| cache := cache w;
                       requests := requests w
                                   ++ take (fault_sent f) (sent (worker_code k)) |})
      | None =>
          p ← step_call (worker_env k) (worker_code k) AtFetch;
          mret (Calling p)
      end
  | Calling p =>
      p' ← step_call (worker_env k) (worker_code k) p;
      mret (Calling p')
  end.

(** The worker number [i] takes its next step. *)
Definition pool_step (i : nat) (workers : list Worker) : M (list Worker) :=
  match workers !! i with
  | Some k =>
      a ← step_worker k;
      mret (<[i := with_at k a]> workers)
  | None => mret workers
  end.

Fixpoint pool_run (schedule : list nat) (workers : list Worker) : M (list Worker) :=
  match schedule with
  | [] => mret workers
  | i :: rest => workers' ← pool_step i workers; pool_run rest workers'
  end.

(** Line 243: one future per code, in the order of [codes]; [envs i] and
    [faults i] are what the environment holds for the worker number [i]. *)
Fixpoint submit_from (envs : nat -> Env) (faults : nat -> option Fault)
    (i : nat) (codes : list string) : list Worker :=
  match codes with
  | [] => []
  | code :: rest =>
      new_worker (envs i) (faults i) code :: submit_from envs faults (S i) rest
  end.

(** [future.result()] once the worker is done. The last case is not
    reached: the pool runs every worker to its end. *)
Definition future_result (k : Worker) : Outcome FundResult :=
  match worker_at k with
  | Calling (Returned r) => Ok r
  | Raised e => Raise e
  | Calling _ => Raise "not done"
  end.

(** The [with] block of lines 242-249: the workers interleave as [schedule]
    says, and the block is left when every worker is done. The pool has ten
    threads; [schedule] ranges over every interleaving of the steps, those
    of ten threads among them. The three sweeps after [schedule] finish the
    workers it left unfinished; a worker that is done does not move. *)
Definition server_pool (envs : nat -> Env) (faults : nat -> option Fault)
    (schedule : list nat) (codes : list string)
    : M (list (string * Outcome FundResult)) :=
  workers ← pool_run (schedule ++ lockstep (length codes))
                     (submit_from envs faults 0 codes);
  mret ((fun k => (worker_code k, future_result k)) <$> workers).

(** How far a worker is. *)
Definition progress_rank (a : Progress) : nat :=
  match a with
  | Calling p => rank p
  | Raised _ => 3
  end.


(** A worker that raised had a fault, and raised its exception. *)
Definition raised_own_fault (k : Worker) : Prop :=
  match worker_at k with
  | Raised e => exists f, worker_fault k = Some f /\ fault_error f = e
  | Calling _ => True
  end.



(** *** What every run of a pool keeps *)




(** A record a worker holds is a record of the worker's code. *)
Definition worker_holds_own_code (k : Worker) : Prop :=
  match worker_at k with
  | Calling (AtStore r) | Calling (Returned r) => res_code r = worker_code k
  | _ => True
  end.

(** ** [FundAPI.fetch_fund_data] (fund_api.py, lines 173-196) *)

Definition source_name (s : Source) : string :=
  match s with
  | Tiantian => "tiantian"
  | EastmoneyNav => "eastmoney_nav"
  | EastmoneyDetail => "eastmoney_detail"
  | Ant => "ant"
  end.

(** The futures of lines 181-186, in the order they are submitted. *)
Definition all_sources : list Source :=
  [Tiantian; EastmoneyNav; EastmoneyDetail; Ant].

Section FundAPI.

(** The dict an adapter of [FundAPI] returns. *)
Variable Dict : Type.

(** The adapter submitted for a source, run by a worker. *)
Variable task : Source -> string -> M (Outcome (option Dict)).

(** [as_completed(futures)]: the futures in the order they finish. *)
Variable as_completed :
  list (Source * Outcome (option Dict)) -> list (Source * Outcome (option Dict)).

Fixpoint submit_tasks (sources : list Source) (code : string)
    : M (list (Source * Outcome (option Dict))) :=
  match sources with
  | [] => mret []
  | s :: rest =>
      o ← task s code;
      futures ← submit_tasks rest code;
      mret ((s, o) :: futures)
  end.

(** Lines 190-194: [try: results[source] = future.result()] and
    [except Exception: results[source] = None]. *)
Definition recorded (o : Outcome (option Dict)) : option Dict :=
  match o with
  | Ok v => v
  | Raise _ => None
  end.

(** The loop of lines 188-194 over the finished futures. *)
Definition gather (completed : list (Source * Outcome (option Dict)))
    : gmap string (option Dict) :=
  foldl (fun results f => <[source_name f.1 := recorded f.2]> results)
        ∅ completed.

Definition fetch_fund_data (code : string) : M (gmap string (option Dict)) :=
  futures ← submit_tasks all_sources code;
  mret (gather (as_completed futures)).

End FundAPI.

Arguments submit_tasks {Dict} task sources code.
Arguments recorded {Dict} o.
Arguments gather {Dict} completed.
Arguments fetch_fund_data {Dict} task as_completed code.

(** An adapter of [FundAPI]: the request, then [try ... except] around the
    body, so the future itself returns. *)
Definition api_adapter {Dict} (body : Source -> Body Dict) (s : Source)
    (code : string) : M (Outcome (option Dict)) :=
  send_request s code;;
  mret (Ok (try_or_None (body s))).

(** ** The rules of the specification, in its words *)

(** The published value and its change, when the authoritative source
    answered. *)
Definition published (nav : option NavDict) : option (num * num) :=
  match nav with
  | Some n => Some (Float (nav_dwjz n), Float (nav_jzzzl n))
  | None => None
  end.

(** The recommended value as the specification selects it: the published
    value when present and above zero, else the estimate when above zero,
    else the zero sentinel. *)
Definition spec_current (pub : option (num * num)) (est : num * num) : num * num :=
  match pub with
  | Some (value, change) =>
      if gt0 value then (value, change)
      else if gt0 est.1 then est else (Int 0, Int 0)
  | None => if gt0 est.1 then est else (Int 0, Int 0)
  end.

(** The estimate a source carries: value, time and change. A returned dict
    always has the three keys, the numbers as floats. *)
Definition estimate_of_tiantian (estimate : option EstimateDict)
    : option (num * pyval * num) :=
  match estimate with
  | Some e => Some (Float (est_gsz e), est_gztime e, Float (est_gszzl e))
  | None => None
  end.

Definition estimate_of_detail (detail : option DetailDict)
    : option (num * pyval * num) :=
  match detail with
  | Some d => Some (Float (det_gsz d), det_gztime d, Float (det_gszzl d))
  | None => None
  end.

(** The first candidate of a priority list that is there. *)
Fixpoint first_present {A} (candidates : list (option A)) : option A :=
  match candidates with
  | [] => None
  | Some a :: _ => Some a
  | None :: rest => first_present rest
  end.

Definition with_updateTime (t : string) (r : FundResult) : FundResult :=
  {| res_code := res_code r;
     res_name := res_name r;
     res_type := res_type r;
     res_nav := res_nav r;
     res_navDate := res_navDate r;
     res_navChange := res_navChange r;
     res_estimate := res_estimate r;
     res_estimateTime := res_estimateTime r;
     res_estimateChange := res_estimateChange r;
     res_currentValue := res_currentValue r;
     res_dayChange := res_dayChange r;
     res_sources := res_sources r;
     res_updateTime := t |}.

(** The record of a total outage: the sentinels, and no source available. *)
Definition no_data (code now : string) : FundResult :=
  {| res_code := code;
     res_name := PStr "";
     res_type := PStr "";
     res_nav := Int 0;
     res_navDate := PStr "";
     res_navChange := Int 0;
     res_estimate := Int 0;
     res_estimateTime := PStr "";
     res_estimateChange := Int 0;
     res_currentValue := Int 0;
     res_dayChange := Int 0;
     res_sources := {| src_estimate := false; src_nav := false; src_detail := false |};
     res_updateTime := now |}.

(** ** [health] (lines 257-264) and the shape of the cache *)

(** The answer of [health] (lines 257-264). *)
Record Health : Type := {
  health_success : bool;
  health_time : string;
  health_cache_size : nat;
}.

(** [now] is [datetime.now().strftime(...)]. *)
Definition health (now : string) : M Health :=
  c ← read_cache;
  mret {| health_success := true; health_time := now; health_cache_size := size c |}.

(** Every key of the cache is ['fund_'] followed by the code of its record. *)
Definition well_keyed (c : gmap string CacheItem) : Prop :=
  forall key item, c !! key = Some item -> key = cache_key (res_code (data item)).

(** ** Calls one after the other *)

(** Each call runs its three steps before the next one starts. *)
Definition in_turn (first n : nat) : list nat :=
  concat ((fun i => [i; i; i]) <$> seq first n).

(** The calls of a group made one after the other. *)
Fixpoint serve (code : string) (envs : list Env) : M (list FundResult) :=
  match envs with
  | [] => mret []
  | env :: rest =>
      r ← get_fund_data env code;
      rs ← serve code rest;
      mret (r :: rs)
  end.

(** *** Calls for any codes, under any interleaving *)

Definition unreturned (c : Call) : bool :=
  match call_pc c with
  | Returned _ => false
  | _ => true
  end.

Definition count_unreturned (calls : list Call) : nat :=
  length (List.filter unreturned calls).

(** A record a call holds is a record of the call's code. *)
Definition holds_own_code (c : Call) : Prop :=
  match call_pc c with
  | AtStore r | Returned r => res_code r = call_code c
  | _ => True
  end.

(** The calls [calls], started from [w0], have reached the state [w];
    [codes] are the codes they were made for. *)
Record bounded (codes : list string) (w0 : World)
    (calls : list Call) (w : World) : Prop := {
  bounded_requests :
    exists added,
      requests w = requests w0 ++ added
      /\ (length added + 3 * count_waiting calls <= 3 * length calls)%nat
      /\ Forall (fun q => q.2 ∈ codes) added;
  bounded_keys : forall key, is_Some (cache w0 !! key) -> is_Some (cache w !! key);
  bounded_size :
    (size (cache w) + count_unreturned calls <= size (cache w0) + length calls)%nat;
  bounded_well_keyed : well_keyed (cache w);
  bounded_codes : Forall (fun c => call_code c ∈ codes /\ holds_own_code c) calls;
}.

(** ** The codes of a batch *)

Fixpoint has_comma (s : string) : bool :=
  match s with
  | EmptyString => false
  | String c rest => Ascii.eqb c "," || has_comma rest
  end.

(** A code as [parse_codes] leaves it: not empty, no white space at either
    end, no comma. *)
Definition clean (s : string) : bool :=
  nonempty s && String.eqb (strip s) s && negb (has_comma s).

(** ** The patterns of the JSONP answers

    [re.search] is called with the name of a callback ([jsonpgz], [jQuery]),
    an opening parenthesis, a greedy group of any characters and a closing
    parenthesis. *)

(** The characters of [s] before its first line feed: [.] matches any
    character but the line feed. *)
Fixpoint first_line (s : string) : string :=
  match s with
  | EmptyString => EmptyString
  | String c rest =>
      if Ascii.eqb c "010" then EmptyString else String c (first_line rest)
  end.

(** The characters of [s] before its last closing parenthesis: the group
    is greedy. *)
Fixpoint before_last_paren (s : string) : option string :=
  match s with
  | EmptyString => None
  | String c rest =>
      match before_last_paren rest with
      | Some g => Some (String c g)
      | None => if Ascii.eqb c ")" then Some EmptyString else None
      end
  end.

(** [s] without its prefix [p]. *)
Fixpoint strip_prefix (p s : string) : option string :=
  match p, s with
  | EmptyString, _ => Some s
  | String a p', String b s' => if Ascii.eqb a b then strip_prefix p' s' else None
  | String _ _, EmptyString => None
  end.

(** The group of a match that starts at the head of [text]; [name] is made
    of letters. *)
Definition match_at (name text : string) : option string :=
  match strip_prefix (name ++ "(")%string text with
  | Some rest => before_last_paren (first_line rest)
  | None => None
  end.

(** [re.search(pattern, text)], then [match.group(1)]: the first position
    of [text] with a match. *)
Fixpoint re_search (name text : string) : option string :=
  match match_at name text with
  | Some g => Some g
  | None =>
      match text with
      | EmptyString => None
      | String _ rest => re_search name rest
      end
  end.

Fixpoint one_line (s : string) : bool :=
  match s with
  | EmptyString => true
  | String c rest => negb (Ascii.eqb c "010") && one_line rest
  end.

Fixpoint has_paren (s : string) : bool :=
  match s with
  | EmptyString => false
  | String c rest => Ascii.eqb c ")" || has_paren rest
  end.

(** ** The bodies of the adapters (lines 58-70, 86-98, 115-129) *)

(** [v.get] exists on a dict only. *)
Definition as_dict (v : pyval) : Outcome (list (string * pyval)) :=
  match v with
  | PDict d => Ok d
  | _ => Raise "AttributeError"
  end.

(** [v[0]]. The keys of a JSON object are strings, so [0] is not one. *)
Definition item0 (v : pyval) : Outcome pyval :=
  match v with
  | PList (x :: _) => Ok x
  | PList [] => Raise "IndexError"
  | PStr (String c _) => Ok (PStr (String c EmptyString))
  | PStr EmptyString => Raise "IndexError"
  | PDict _ => Raise "KeyError"
  | PNone | PBool _ | PNum _ => Raise "TypeError"
  end.

Section Adapters.

Variable float_of_str : string -> option float.

(** [json.loads(s)]. *)
Variable json_loads : string -> Outcome pyval.

(** The [try] block of [fetch_tiantian_estimate]; [response] is [resp.text],
    or the exception of [requests.get]. *)
Definition tiantian_body (code : string) (response : Outcome string)
    : Body EstimateDict :=
  match response with
  | Raise e => Raises e
  | Ok text =>
      match re_search "jsonpgz" text with
      | None => FallsThrough
      | Some group =>
          reached (data ← json_loads group;
                   d ← as_dict data;
                   estimate_dict float_of_str code d)
      end
  end.

(** The [try] block of [fetch_eastmoney_nav]. *)
Definition nav_body (response : Outcome string) : Body NavDict :=
  match response with
  | Raise e => Raises e
  | Ok text =>
      match re_search "jQuery" text with
      | None => FallsThrough
      | Some group =>
          match (data ← json_loads group;
                 d ← as_dict data;
                 inner ← as_dict (dict_get d "Data" (PDict []));
                 mret (dict_get inner "LSJZList" PNone)) with
          | Raise e => Raises e
          | Ok lsjz =>
              if truthy lsjz
              then reached (latest ← item0 lsjz;
                            l ← as_dict latest;
                            nav_dict float_of_str l)
              else FallsThrough
          end
      end
  end.

(** The [try] block of [fetch_eastmoney_detail]; [response] is
    [resp.json()], or the exception of the request or of the decoding. *)
Definition detail_body (code : string) (response : Outcome pyval)
    : Body DetailDict :=
  match response with
  | Raise e => Raises e
  | Ok data =>
      match as_dict data with
      | Raise e => Raises e
      | Ok d =>
          if truthy (dict_get d "Datas" PNone)
          then reached (first ← item0 (dict_get d "Datas" PNone);
                        x ← as_dict first;
                        detail_dict float_of_str code x)
          else FallsThrough
      end
  end.

End Adapters.

(** ** The adapters of [FundAPI] (fund_api.py, lines 47-170)

    Their dicts are kept as the lists of their pairs, in the order of the
    literal. The labels under ['source'] are the UTF-8 bytes of the source
    file. *)

Section ApiAdapters.

Variable float_of_str : string -> option float.
Variable json_loads : string -> Outcome pyval.

(** [float(d.get(key, 0))], without [or 0]. *)
Definition float_of_key (d : list (string * pyval)) (key : string) : Outcome float :=
  py_float float_of_str (dict_get d key (PNum (Int 0))).

(** Lines 59-67. *)
Definition api_estimate_dict (code : string) (data : list (string * pyval))
    : Outcome (list (string * pyval)) :=
  dwjz ← float_of_key data "dwjz";
  gsz ← float_of_key data "gsz";
  gszzl ← float_of_key data "gszzl";
  mret [("code", dict_get data "fundcode" (PStr code));
        ("name", dict_get data "name" (PStr ""));
        ("dwjz", PNum (Float dwjz));
        ("gsz", PNum (Float gsz));
        ("gszzl", PNum (Float gszzl));
        ("gztime", dict_get data "gztime" (PStr ""));
        ("source", PStr "天天基金估值")].

(** Lines 94-102. *)
Definition api_nav_dict (code : string) (latest : list (string * pyval))
    : Outcome (list (string * pyval)) :=
  dwjz ← float_of_key latest "DWJZ";
  ljjz ← float_of_key latest "LJJZ";
  jzzzl ← float_or_0 float_of_str latest "JZZZL";
  mret [("code", PStr code);
        ("name", PStr "");
        ("dwjz", PNum (Float dwjz));
        ("ljjz", PNum (Float ljjz));
        ("jzzzl", PNum (Float jzzzl));
        ("fsrq", dict_get latest "FSRQ" (PStr ""));
        ("source", PStr "东方财富净值")].

(** Lines 128-138. *)
Definition api_detail_dict (code : string) (d : list (string * pyval))
    : Outcome (list (string * pyval)) :=
  dwjz ← float_or_0 float_of_str d "DWJZ";
  gsz ← float_or_0 float_of_str d "GSZ";
  gszzl ← float_or_0 float_of_str d "GSZZL";
  mret [("code", dict_get d "FCODE" (PStr code));
        ("name", dict_get d "SHORTNAME" (PStr ""));
        ("type", dict_get d "FTYPE" (PStr ""));
        ("dwjz", PNum (Float dwjz));
        ("gsz", PNum (Float gsz));
        ("gszzl", PNum (Float gszzl));
        ("gztime", dict_get d "GZTIME" (PStr ""));
        ("jzrq", dict_get d "PDATE" (PStr ""));
        ("source", PStr "东方财富详情")].

(** Lines 159-167. *)
Definition api_ant_dict (code : string) (r : list (string * pyval))
    : Outcome (list (string * pyval)) :=
  dwjz ← float_or_0 float_of_str r "netValue";
  gsz ← float_or_0 float_of_str r "estimateValue";
  gszzl ← float_or_0 float_of_str r "estimateRate";
  mret [("code", PStr code);
        ("name", dict_get r "fundName" (PStr ""));
        ("dwjz", PNum (Float dwjz));
        ("gsz", PNum (Float gsz));
        ("gszzl", PNum (Float gszzl));
        ("gztime", dict_get r "estimateTime" (PStr ""));
        ("source", PStr "蚂蚁基金")].

(** The [try] block of [FundAPI.fetch_tiantian_estimate]. *)
Definition api_estimate_body (code : string) (response : Outcome string)
    : Body (list (string * pyval)) :=
  match response with
  | Raise e => Raises e
  | Ok text =>
      match re_search "jsonpgz" text with
      | None => FallsThrough
      | Some group =>
          reached (data ← json_loads group;
                   d ← as_dict data;
                   api_estimate_dict code d)
      end
  end.

(** The [try] block of [FundAPI.fetch_eastmoney_nav]. *)
Definition api_nav_body (code : string) (response : Outcome string)
    : Body (list (string * pyval)) :=
  match response with
  | Raise e => Raises e
  | Ok text =>
      match re_search "jQuery" text with
      | None => FallsThrough
      | Some group =>
          match (data ← json_loads group;
                 d ← as_dict data;
                 inner ← as_dict (dict_get d "Data" (PDict []));
                 mret (dict_get inner "LSJZList" PNone)) with
          | Raise e => Raises e
          | Ok lsjz =>
              if truthy lsjz
              then reached (latest ← item0 lsjz;
                            l ← as_dict latest;
                            api_nav_dict code l)
              else FallsThrough
          end
      end
  end.

(** The [try] block of [FundAPI.fetch_eastmoney_detail]. *)
Definition api_detail_body (code : string) (response : Outcome pyval)
    : Body (list (string * pyval)) :=
  match response with
  | Raise e => Raises e
  | Ok data =>
      match as_dict data with
      | Raise e => Raises e
      | Ok d =>
          if truthy (dict_get d "Datas" PNone)
          then reached (first ← item0 (dict_get d "Datas" PNone);
                        x ← as_dict first;
                        api_detail_dict code x)
          else FallsThrough
      end
  end.

(** The [try] block of [FundAPI.fetch_ant_fund]:
    [data.get('success') and data.get('result')]. *)
Definition api_ant_body (code : string) (response : Outcome pyval)
    : Body (list (string * pyval)) :=
  match response with
  | Raise e => Raises e
  | Ok data =>
      match as_dict data with
      | Raise e => Raises e
      | Ok d =>
          if truthy (dict_get d "success" PNone) && truthy (dict_get d "result" PNone)
          then reached (r ← as_dict (dict_get d "result" PNone);
                        api_ant_dict code r)
          else FallsThrough
      end
  end.

End ApiAdapters.

(** ** [FundAPI.fetch_batch] (fund_api.py, lines 199-210)

    The codes are fetched one after the other; the pause between two codes
    and the progress line are left out. *)

Section FetchBatch.

Variable Dict : Type.

(** The adapters and the order of completion at the code number [i]. *)
Variable task : nat -> Source -> string -> M (Outcome (option Dict)).
Variable as_completed :
  nat -> list (Source * Outcome (option Dict)) -> list (Source * Outcome (option Dict)).

Fixpoint fetch_batch_from (i : nat) (codes : list string)
    (all_results : gmap string (gmap string (option Dict)))
    : M (gmap string (gmap string (option Dict))) :=
  match codes with
  | [] => mret all_results
  | code :: rest =>
      results ← fetch_fund_data (task i) (as_completed i) code;
      fetch_batch_from (S i) rest (<[code := results]> all_results)
  end.

Definition fetch_batch (codes : list string)
    : M (gmap string (gmap string (option Dict))) :=
  fetch_batch_from 0 codes ∅.

End FetchBatch.

Arguments fetch_batch_from {Dict} task as_completed i codes all_results.
Arguments fetch_batch {Dict} task as_completed codes.

(** The four requests of one code, in the order the futures are submitted. *)
Definition sent_by_api (code : string) : list (Source * string) :=
  (fun s => (s, code)) <$> all_sources.

(** The futures of [fetch_fund_data] when every task is an adapter. *)
Definition api_futures {Dict} (body : Source -> Body Dict)
    : list (Source * Outcome (option Dict)) :=
  (fun s => (s, Ok (try_or_None (body s)))) <$> all_sources.

(** ** Concrete inputs *)

Definition world0 : World := {| cache := ∅; requests := [] |}.

(** A published value, dated the day before. *)
Definition nav_confirmed : NavDict :=
  {| nav_dwjz := 1.25%float; nav_ljjz := 2.5%float; nav_jzzzl := 0.5%float;
     nav_fsrq := PStr "2024-01-01" |}.

(** The authoritative source answers with a value of zero. *)
Definition nav_zero : NavDict :=
  {| nav_dwjz := 0%float; nav_ljjz := 0%float; nav_jzzzl := 0%float;
     nav_fsrq := PStr "" |}.

Definition est_morning : EstimateDict :=
  {| est_code := PStr "000216"; est_name := PStr "Gold ETF A";
     est_dwjz := 1.25%float; est_gsz := 1.5%float; est_gszzl := 0.25%float;
     est_gztime := PStr "2024-01-02 10:00" |}.

Definition est_later : EstimateDict :=
  {| est_code := PStr "000216"; est_name := PStr "Gold ETF A";
     est_dwjz := 1.25%float; est_gsz := 1.75%float; est_gszzl := 0.375%float;
     est_gztime := PStr "2024-01-02 10:01" |}.

(** The estimate source answers, with no estimate in its document: the
    adapter wrote [0.0]. *)
Definition est_empty : EstimateDict :=
  {| est_code := PStr "000216"; est_name := PStr "";
     est_dwjz := 0%float; est_gsz := 0%float; est_gszzl := 0%float;
     est_gztime := PStr "" |}.

Definition det_morning : DetailDict :=
  {| det_code := PStr "000216"; det_name := PStr "Gold ETF A";
     det_type := PStr "ETF"; det_dwjz := 1.25%float; det_gsz := 2.5%float;
     det_gszzl := 0.125%float; det_gztime := PStr "2024-01-02 09:59";
     det_pdate := PStr "2024-01-01" |}.

(** The document of the estimate source has no estimate, the one of the
    detail source has one. *)
Definition doc_no_estimate : list (string * pyval) :=
  [("fundcode", PStr "000216"); ("name", PStr ""); ("dwjz", PNone);
   ("gsz", PNone); ("gszzl", PNone); ("gztime", PStr "")].

Definition doc_detail : list (string * pyval) :=
  [("FCODE", PStr "000216"); ("SHORTNAME", PStr "Gold ETF A");
   ("FTYPE", PStr "ETF"); ("DWJZ", PNum (Float 1.25%float));
   ("GSZ", PNum (Float 2.5%float)); ("GSZZL", PNum (Float 0.125%float));
   ("GZTIME", PStr "2024-01-02 09:59"); ("PDATE", PStr "2024-01-01")].

(** No string of these documents is read as a number. *)
Definition no_str (s : string) : option float := None.

(** Every source is down. *)
Definition env_down : Env :=
  {| time_get_cached := 1700000000%float;
     body_estimate := Raises "ConnectionError";
     body_nav := FallsThrough;
     body_detail := Raises "Timeout";
     datetime_now := "2024-01-02 10:00:00";
     time_set_cache := 1700000010%float |}.

Definition env_a : Env :=
  {| time_get_cached := 1700000000%float;
     body_estimate := Returns est_morning;
     body_nav := Returns nav_confirmed;
     body_detail := Returns det_morning;
     datetime_now := "2024-01-02 10:00:00";
     time_set_cache := 1700000001%float |}.

Definition env_b : Env :=
  {| time_get_cached := 1700000000.5%float;
     body_estimate := Returns est_later;
     body_nav := Returns nav_confirmed;
     body_detail := Returns det_morning;
     datetime_now := "2024-01-02 10:00:01";
     time_set_cache := 1700000001.5%float |}.

(** A call 29.5 seconds after [env_a] stored, and one 30 seconds after. *)
Definition env_soon : Env :=
  {| time_get_cached := 1700000030.5%float;
     body_estimate := Returns est_later;
     body_nav := Returns nav_confirmed;
     body_detail := Returns det_morning;
     datetime_now := "2024-01-02 10:00:30";
     time_set_cache := 1700000031.5%float |}.

Definition env_late : Env :=
  {| time_get_cached := 1700000031%float;
     body_estimate := Returns est_later;
     body_nav := Returns nav_confirmed;
     body_detail := Returns det_morning;
     datetime_now := "2024-01-02 10:00:31";
     time_set_cache := 1700000032%float |}.



Definition no_fault (i : nat) : option Fault := None.

Definition api_bodies (s : Source) : Body string :=
  match s with
  | Tiantian => Returns "tiantian dict"
  | EastmoneyNav => Raises "JSONDecodeError"
  | EastmoneyDetail => FallsThrough
  | Ant => Returns "ant dict"
  end.

(** The future of one source raises, the others run their adapter. *)
Definition api_task (s : Source) (code : string) : M (Outcome (option string)) :=
  match s with
  | EastmoneyDetail => fun w => (Raise "CancelledError", w)
  | _ => api_adapter api_bodies s code
  end.

(** A decoder for the examples: it knows two documents. *)
Definition toy_loads (s : string) : Outcome pyval :=
  if String.eqb s "{}" then Ok (PDict [])
  else if String.eqb s "[]" then Ok (PList [])
  else Raise "JSONDecodeError".

(** * Properties *)

(** ** Floats *)

Lemma SFcompare_antisym (a b : spec_float) :
  SFcompare b a = CompOpp <$> SFcompare a b.
Proof.
  destruct a as [sa|sa| |sa ma ea], b as [sb|sb| |sb mb eb]; simpl;
    try reflexivity; try (destruct sa; reflexivity); try (destruct sb; reflexivity);
    try (destruct sa, sb; reflexivity).
  change PosDef.Pos.compare_cont with Pos.compare_cont.
  destruct sa, sb; simpl; try reflexivity;
    rewrite (Z.compare_antisym ea eb); destruct (ea ?= eb)%Z; simpl; try reflexivity;
    f_equal; rewrite ?CompOpp_involutive;
    first [ apply (Pos.compare_cont_antisym _ _ Eq)
          | symmetry; apply (Pos.compare_cont_antisym _ _ Eq) ].
Qed.

(** [y <= x] excludes [x < y], also on the special values. *)
Lemma float_leb_ltb (x y : float) :
  (y <=? x)%float = true -> (x <? y)%float = false.
Proof.
  rewrite leb_spec, ltb_spec. unfold SFleb, SFltb.
  rewrite (SFcompare_antisym (Prim2SF y) (Prim2SF x)).
  destruct (SFcompare (Prim2SF y) (Prim2SF x)) as [[]|]; simpl; congruence.
Qed.

Lemma le0_not_gt0 (x : num) : le0 x = true -> gt0 x = false.
Proof.
  destruct x as [z|f]; simpl.
  - intros H. apply Z.ltb_ge. by apply Z.leb_le.
  - apply float_leb_ltb.
Qed.

(** ** The merge *)

Lemma recommend_other (r : FundResult) :
  res_nav (recommend r) = res_nav r /\ res_navChange (recommend r) = res_navChange r
  /\ res_estimate (recommend r) = res_estimate r
  /\ res_estimateTime (recommend r) = res_estimateTime r
  /\ res_estimateChange (recommend r) = res_estimateChange r
  /\ res_sources (recommend r) = res_sources r
  /\ res_name (recommend r) = res_name r /\ res_type (recommend r) = res_type r.
Proof.
  unfold recommend.
  destruct (gt0 (res_nav r)), (gt0 (res_estimate r)); simpl; repeat split.
Qed.

Lemma recommend_current (r : FundResult) :
  (res_currentValue (recommend r), res_dayChange (recommend r)) =
  if gt0 (res_nav r) then (res_nav r, res_navChange r)
  else if gt0 (res_estimate r) then (res_estimate r, res_estimateChange r)
  else (res_currentValue r, res_dayChange r).
Proof.
  unfold recommend.
  destruct (gt0 (res_nav r)), (gt0 (res_estimate r)); reflexivity.
Qed.

Lemma merge_nav code estimate nav detail now :
  let r := merge code estimate nav detail now in
  (res_nav r, res_navChange r) = default (Int 0, Int 0) (published nav).
Proof.
  unfold merge.
  destruct (recommend_other (fill_nav nav (fill_estimate estimate (fill_detail detail
             (initial_result code estimate nav detail now))))) as (-> & -> & _).
  destruct nav, estimate, detail; reflexivity.
Qed.

Lemma merge_current code estimate nav detail now :
  let r := merge code estimate nav detail now in
  (res_currentValue r, res_dayChange r) =
  if gt0 (res_nav r) then (res_nav r, res_navChange r)
  else if gt0 (res_estimate r) then (res_estimate r, res_estimateChange r)
  else (Int 0, Int 0).
Proof.
  unfold merge. rewrite recommend_current.
  destruct (recommend_other (fill_nav nav (fill_estimate estimate (fill_detail detail
             (initial_result code estimate nav detail now)))))
    as (-> & -> & -> & _ & -> & _).
  destruct nav, estimate, detail; reflexivity.
Qed.

Lemma merge_sources code estimate nav detail now :
  res_sources (merge code estimate nav detail now) =
  {| src_estimate := is_not_None estimate;
     src_nav := is_not_None nav;
     src_detail := is_not_None detail |}.
Proof.
  unfold merge.
  destruct (recommend_other (fill_nav nav (fill_estimate estimate (fill_detail detail
             (initial_result code estimate nav detail now)))))
    as (_ & _ & _ & _ & _ & -> & _).
  destruct nav, estimate, detail; reflexivity.
Qed.

Lemma merge_updateTime code estimate nav detail now :
  res_updateTime (merge code estimate nav detail now) = now.
Proof.
  unfold merge, recommend.
  destruct nav, estimate, detail; simpl;
    repeat match goal with |- context [if ?b then _ else _] => destruct b end;
    reflexivity.
Qed.

Lemma merge_with_updateTime code estimate nav detail now now' :
  with_updateTime now' (merge code estimate nav detail now) =
  merge code estimate nav detail now'.
Proof.
  unfold merge, recommend.
  destruct nav, estimate, detail; simpl;
    repeat match goal with |- context [if ?b then _ else _] => destruct b end;
    reflexivity.
Qed.

Lemma merge_no_data code now : merge code None None None now = no_data code now.
Proof. reflexivity. Qed.

(** C1. The recommended value of the merged record. Whatever the three
    sources returned, [currentValue] and [dayChange] are the published value
    and its change when the authoritative source answered with a value above
    zero, whatever the estimate is; otherwise they are the merged estimate
    and its change when that estimate is above zero; otherwise both are the
    sentinel [0]. A published value that is zero or below is passed over as
    if it were absent. *)
Theorem current_value_selection code estimate nav detail now :
  let r := merge code estimate nav detail now in
  (res_currentValue r, res_dayChange r) =
    spec_current (published nav) (res_estimate r, res_estimateChange r)
  /\ (forall n, nav = Some n -> (0 <? nav_dwjz n)%float = true ->
        res_currentValue r = Float (nav_dwjz n)
        /\ res_dayChange r = Float (nav_jzzzl n))
  /\ (forall value change,
        published nav = Some (value, change) -> le0 value = true ->
        (res_currentValue r, res_dayChange r) =
          if gt0 (res_estimate r) then (res_estimate r, res_estimateChange r)
          else (Int 0, Int 0)).
Proof.
  intros r.
  assert (Hsel : (res_currentValue r, res_dayChange r) =
    spec_current (published nav) (res_estimate r, res_estimateChange r)).
  { pose proof (merge_current code estimate nav detail now) as Hc.
    pose proof (merge_nav code estimate nav detail now) as Hn.
    fold r in Hc, Hn. cbv zeta in Hc, Hn. rewrite Hc.
    unfold spec_current.
    destruct (published nav) as [[v c]|]; simpl in Hn |- *;
      injection Hn as Hv Hch; rewrite Hv, Hch; reflexivity. }
  split; [exact Hsel|]. split.
  - intros n -> Hpos. simpl in Hsel. rewrite Hpos in Hsel. by injection Hsel.
  - intros value change Hp Hle. rewrite Hsel, Hp. simpl.
    by rewrite (le0_not_gt0 _ Hle).
Qed.

(** The scenarios of the specification: the published value wins over a
    later estimate; a published value of zero gives way to the estimate; no
    data at all gives the sentinel. *)
Lemma current_value_selection_witness :
  res_currentValue (merge "000216" (Some est_morning) (Some nav_confirmed) None "")
    = Float 1.25%float
  /\ (res_currentValue (merge "000216" (Some est_morning) (Some nav_zero) None ""),
      res_dayChange (merge "000216" (Some est_morning) (Some nav_zero) None ""))
     = (Float 1.5%float, Float 0.25%float)
  /\ (res_currentValue (merge "000216" None None None ""),
      res_dayChange (merge "000216" None None None "")) = (Int 0, Int 0).
Proof.
  split; [|split].
  - destruct (current_value_selection "000216" (Some est_morning)
                (Some nav_confirmed) None "") as (_ & H & _).
    apply (H nav_confirmed); reflexivity.
  - destruct (current_value_selection "000216" (Some est_morning) (Some nav_zero)
                None "") as (_ & _ & H).
    apply (H (Float 0%float) (Float 0%float)); reflexivity.
  - destruct (current_value_selection "000216" None None None "") as (H & _).
    exact H.
Defined.

(** C6, as stated, fails. The document of the estimate source carries a
    null estimate; its adapter still returns a dict, with [0.0] written for
    the estimate, and the merge takes that dict: the estimate [2.5] of the
    detail source, next in priority, is displaced by [0.0]. *)
Lemma null_estimate_displaces_detail :
  dict_get doc_no_estimate "gsz" (PNum (Int 0)) = PNone
  /\ estimate_dict no_str "000216" doc_no_estimate = Ok est_empty
  /\ detail_dict no_str "000216" doc_detail = Ok det_morning
  /\ (res_estimate (merge "000216" (Some est_empty) None (Some det_morning) ""),
      res_estimateTime (merge "000216" (Some est_empty) None (Some det_morning) ""),
      res_estimateChange (merge "000216" (Some est_empty) None (Some det_morning) ""))
     = (Float 0%float, PStr "", Float 0%float)
  /\ res_estimate (merge "000216" (Some est_empty) None (Some det_morning) "")
     <> Float (det_gsz det_morning).
Proof.
  repeat split.
  intros H.
  apply (f_equal (fun x => match x with
                           | Float f => (f =? 0)%float
                           | Int _ => false
                           end)) in H.
  vm_compute in H. discriminate H.
Qed.

(** C6, amended. The sources that carry an estimate are, in priority order,
    the estimate source and the detail source; the merged value, time and
    change are those of the first of them whose adapter returned a dict, taken
    as they are, and the defaults when neither did. So a source that returned
    [None] never displaces the other's estimate, while a returned dict always
    does, whatever its estimate is. *)
Theorem estimate_from_first_adapter code estimate nav detail now :
  let r := merge code estimate nav detail now in
  (res_estimate r, res_estimateTime r, res_estimateChange r) =
    default (Int 0, PStr "", Int 0)
      (first_present [estimate_of_tiantian estimate; estimate_of_detail detail])
  /\ (estimate = None ->
      (res_estimate r, res_estimateTime r, res_estimateChange r) =
        default (Int 0, PStr "", Int 0) (estimate_of_detail detail))
  /\ (forall e, estimate = Some e ->
      (res_estimate r, res_estimateTime r, res_estimateChange r) =
        (Float (est_gsz e), est_gztime e, Float (est_gszzl e))).
Proof.
  intros r. unfold r, merge.
  destruct (recommend_other (fill_nav nav (fill_estimate estimate (fill_detail detail
             (initial_result code estimate nav detail now)))))
    as (_ & _ & -> & -> & -> & _).
  split; [|split].
  - destruct nav, estimate, detail; reflexivity.
  - intros ->. destruct nav, detail; reflexivity.
  - intros e ->. destruct nav, detail; reflexivity.
Qed.

Lemma estimate_from_first_adapter_witness :
  (res_estimate (merge "000216" (Some est_morning) None (Some det_morning) ""),
   res_estimateTime (merge "000216" (Some est_morning) None (Some det_morning) ""),
   res_estimateChange (merge "000216" (Some est_morning) None (Some det_morning) ""))
  = (Float 1.5%float, PStr "2024-01-02 10:00", Float 0.25%float)
  /\ (res_estimate (merge "000216" None None (Some det_morning) ""),
      res_estimateTime (merge "000216" None None (Some det_morning) ""),
      res_estimateChange (merge "000216" None None (Some det_morning) ""))
     = (Float 2.5%float, PStr "2024-01-02 09:59", Float 0.125%float).
Proof.
  split.
  - apply (proj1 (estimate_from_first_adapter "000216" (Some est_morning) None
                    (Some det_morning) "")).
  - apply (proj1 (proj2 (estimate_from_first_adapter "000216" None None
                           (Some det_morning) ""))).
    reflexivity.
Defined.

(** C5, as stated, fails: the merge reads the clock for ['updateTime'], so
    two runs on the same outcomes at different times differ in that field. *)
Lemma merge_not_function_of_outcomes :
  ~ (forall code estimate nav detail now1 now2,
       merge code estimate nav detail now1 = merge code estimate nav detail now2).
Proof.
  intros H.
  specialize (H "000216" None None None "2024-01-02 10:00:00" "2024-01-02 10:00:31").
  apply (f_equal res_updateTime) in H. discriminate H.
Qed.

(** C5, amended. Two runs of the merge on the same code and the same three
    outcomes produce records that agree in every field but ['updateTime'],
    which is the reading of the clock of each run; on the same reading the
    records are equal. *)
Theorem merge_deterministic_up_to_clock code estimate nav detail now1 now2 :
  merge code estimate nav detail now1 =
    with_updateTime now1 (merge code estimate nav detail now2)
  /\ res_updateTime (merge code estimate nav detail now1) = now1.
Proof.
  split; [symmetry; apply merge_with_updateTime | apply merge_updateTime].
Qed.

(** ** The cache and [get_fund_data] *)

Lemma fetch_and_merge_eq env code w :
  fetch_and_merge env code w =
  (fetched env code, {| cache := cache w; requests := requests w ++ sent code |}).
Proof.
  cbv [fetch_and_merge fetch_tiantian_estimate fetch_eastmoney_nav
       fetch_eastmoney_detail send_request mbind M_bind mret M_ret].
  simpl. unfold fetched, sent. rewrite <- !(assoc_L (++)). reflexivity.
Qed.

Lemma lookup_cached_eq env code w :
  lookup_cached env code w =
  (get_cached (cache_key code) (time_get_cached env) (cache w), w).
Proof. reflexivity. Qed.

Lemma store_result_eq env code r w :
  store_result env code r w =
  (tt, {| cache := set_cache (cache_key code) r (time_set_cache env) (cache w);
          requests := requests w |}).
Proof. reflexivity. Qed.

Lemma get_fund_data_hit env code w r :
  get_cached (cache_key code) (time_get_cached env) (cache w) = Some r ->
  get_fund_data env code w = (r, w).
Proof.
  intros H. unfold get_fund_data. cbv [mbind M_bind].
  rewrite lookup_cached_eq, H. reflexivity.
Qed.

Lemma get_fund_data_miss env code w :
  get_cached (cache_key code) (time_get_cached env) (cache w) = None ->
  get_fund_data env code w =
  (fetched env code,
   {| cache := set_cache (cache_key code) (fetched env code)
                         (time_set_cache env) (cache w);
      requests := requests w ++ sent code |}).
Proof.
  intros H. unfold get_fund_data. cbv [mbind M_bind].
  rewrite lookup_cached_eq, H, fetch_and_merge_eq. reflexivity.
Qed.

Lemma get_cached_ext key now (c1 c2 : gmap string CacheItem) :
  c1 !! key = c2 !! key -> get_cached key now c1 = get_cached key now c2.
Proof. unfold get_cached. by intros ->. Qed.

(** C3. A total outage. When the three sources fail (each adapter returns
    [None]: its body raised or found nothing) in a call that misses the
    cache, [get_fund_data] returns the record of sentinels, with every source
    marked unavailable, and stores that very record in the cache. The call is
    a total function of its inputs: nothing is raised. *)
Theorem total_outage_returns_no_data env code w :
  try_or_None (body_estimate env) = None ->
  try_or_None (body_nav env) = None ->
  try_or_None (body_detail env) = None ->
  get_cached (cache_key code) (time_get_cached env) (cache w) = None ->
  (get_fund_data env code w).1 = no_data code (datetime_now env)
  /\ res_sources (get_fund_data env code w).1 =
       {| src_estimate := false; src_nav := false; src_detail := false |}
  /\ cache (get_fund_data env code w).2 !! cache_key code =
       Some {| data := (get_fund_data env code w).1;
               timestamp := time_set_cache env |}.
Proof.
  intros He Hn Hd Hmiss.
  rewrite (get_fund_data_miss _ _ _ Hmiss). unfold fetched.
  rewrite He, Hn, Hd. simpl. repeat split.
  unfold set_cache. by rewrite lookup_insert_eq.
Qed.

Lemma total_outage_returns_no_data_witness :
  (get_fund_data env_down "000216" world0).1 = no_data "000216" "2024-01-02 10:00:00"
  /\ res_sources (get_fund_data env_down "000216" world0).1 =
       {| src_estimate := false; src_nav := false; src_detail := false |}
  /\ cache (get_fund_data env_down "000216" world0).2 !! cache_key "000216" =
       Some {| data := (get_fund_data env_down "000216" world0).1;
               timestamp := 1700000010%float |}.
Proof.
  apply (total_outage_returns_no_data env_down "000216" world0); reflexivity.
Defined.

(** C4. Cache freshness. With an entry for the key whose age, at the reading
    of the clock in [get_cached], is below [CACHE_TTL], the call returns the
    stored record and leaves the state as it is: no request is sent. With no
    entry, or one whose age is [CACHE_TTL] or more, the call sends one
    request to each source, returns the merged record, and replaces the entry
    by that record stamped with the reading of the clock in [set_cache]. *)
Theorem cache_freshness env code w :
  (forall item,
      cache w !! cache_key code = Some item ->
      (time_get_cached env - timestamp item <? CACHE_TTL)%float = true ->
      get_fund_data env code w = (data item, w))
  /\ (cache w !! cache_key code = None
      \/ (exists item, cache w !! cache_key code = Some item
            /\ (CACHE_TTL <=? time_get_cached env - timestamp item)%float = true) ->
      get_fund_data env code w =
        (fetched env code,
         {| cache := <[cache_key code :=
                         {| data := fetched env code;
                            timestamp := time_set_cache env |}]> (cache w);
            requests := requests w ++ sent code |})).
Proof.
  split.
  - intros item Hitem Hfresh. apply get_fund_data_hit.
    unfold get_cached. by rewrite Hitem, Hfresh.
  - intros Hmiss. apply get_fund_data_miss. unfold get_cached.
    destruct Hmiss as [-> | (item & -> & Hold)]; [done|].
    by rewrite (float_leb_ltb _ _ Hold).
Qed.

(** A call 29.5 seconds after the store is served from the cache; a call 30
    seconds after it fetches again. *)
Lemma cache_freshness_witness :
  get_fund_data env_soon "000216" (get_fund_data env_a "000216" world0).2 =
    (fetched env_a "000216", (get_fund_data env_a "000216" world0).2)
  /\ get_fund_data env_late "000216" (get_fund_data env_a "000216" world0).2 =
       (fetched env_late "000216",
        {| cache := {[ cache_key "000216" :=
                         {| data := fetched env_late "000216";
                            timestamp := 1700000032%float |} ]};
           requests := sent "000216" ++ sent "000216" |}).
Proof.
  split.
  - apply (proj1 (cache_freshness env_soon "000216"
                    (get_fund_data env_a "000216" world0).2)
             {| data := fetched env_a "000216"; timestamp := 1700000001%float |});
      reflexivity.
  - rewrite (proj2 (cache_freshness env_late "000216"
                      (get_fund_data env_a "000216" world0).2)).
    + vm_compute. reflexivity.
    + right. exists {| data := fetched env_a "000216"; timestamp := 1700000001%float |}.
      split; reflexivity.
Defined.

Lemma cache_key_inj code code' : cache_key code = cache_key code' -> code = code'.
Proof. unfold cache_key. simpl. intros H. by injection H. Qed.

Lemma merge_code code estimate nav detail now :
  res_code (merge code estimate nav detail now) = code.
Proof.
  unfold merge, recommend.
  destruct nav, estimate, detail; simpl;
    repeat match goal with |- context [if ?b then _ else _] => destruct b end;
    reflexivity.
Qed.

(** ** Concurrent calls *)

Lemma pipeline_runs_fetch code w :
  pipeline_runs code {| cache := cache w; requests := requests w ++ sent code |} =
  S (pipeline_runs code w).
Proof.
  unfold pipeline_runs. simpl. rewrite List.filter_app, length_app. simpl.
  rewrite String.eqb_refl. simpl. lia.
Qed.

Lemma step_call_cases env code p w :
  match p with
  | AtLookup =>
      step_call env code p w =
      (match get_cached (cache_key code) (time_get_cached env) (cache w) with
       | Some r => Returned r
       | None => AtFetch
       end, w)
  | AtFetch =>
      step_call env code p w =
      (AtStore (fetched env code),
       {| cache := cache w; requests := requests w ++ sent code |})
  | AtStore r =>
      step_call env code p w =
      (Returned r,
       {| cache := set_cache (cache_key code) r (time_set_cache env) (cache w);
          requests := requests w |})
  | Returned r => step_call env code p w = (Returned r, w)
  end.
Proof.
  destruct p; simpl; cbv [mbind M_bind mret M_ret];
    rewrite ?lookup_cached_eq, ?fetch_and_merge_eq, ?store_result_eq; reflexivity.
Qed.

Lemma step_at_middle l1 c l2 w :
  step_at (length l1) (l1 ++ c :: l2) w =
  let (p, w') := step_call (call_env c) (call_code c) (call_pc c) w in
  (l1 ++ with_pc c p :: l2, w').
Proof.
  unfold step_at. rewrite list_lookup_middle by done.
  cbv [mbind M_bind mret M_ret].
  destruct (step_call (call_env c) (call_code c) (call_pc c) w) as [p w'].
  f_equal. rewrite <- (Nat.add_0_r (length l1)). by rewrite insert_app_r.
Qed.

Lemma step_at_outside i calls w :
  calls !! i = None -> step_at i calls w = (calls, w).
Proof. intros H. unfold step_at. by rewrite H. Qed.

Section Coalescing.
Variables (code : string) (envs : list Env) (w0 : World).
Hypothesis uncached :
  Forall (fun env =>
            get_cached (cache_key code) (time_get_cached env) (cache w0) = None) envs.

Lemma count_waiting_middle l1 c l2 :
  count_waiting (l1 ++ c :: l2) =
  (count_waiting l1 + (if waiting c then 1 else 0) + count_waiting l2)%nat.
Proof.
  unfold count_waiting. rewrite List.filter_app, length_app. simpl.
  destruct (waiting c); simpl; lia.
Qed.

Lemma count_waiting_new (es : list Env) :
  count_waiting ((fun env => new_call env code) <$> es) = length es.
Proof.
  unfold count_waiting. induction es as [|e es IH]; simpl; [done|]. by f_equal.
Qed.

Lemma inv_init :
  inv code envs w0 ((fun env => new_call env code) <$> envs) w0.
Proof.
  split.
  - apply Forall2_fmap_r, Forall_Forall2_diag, Forall_forall. by intros env _.
  - done.
  - rewrite count_waiting_new. lia.
  - left. split; [|done]. apply Forall_fmap, Forall_forall. by intros env _.
  - by left.
  - apply Forall_fmap, Forall_forall. by intros env _.
Qed.

Lemma uncached_at (env : Env) (w : World) :
  env ∈ envs ->
  cache w !! cache_key code = cache w0 !! cache_key code ->
  get_cached (cache_key code) (time_get_cached env) (cache w) = None.
Proof.
  intros Hin Hsame. rewrite (get_cached_ext _ _ _ _ Hsame).
  by apply (proj1 (Forall_forall _ _) uncached).
Qed.

Lemma inv_step_middle l1 c l2 w :
  inv code envs w0 (l1 ++ c :: l2) w ->
  inv code envs w0
    (l1 ++ with_pc c (step_call (call_env c) (call_code c) (call_pc c) w).1 :: l2)
    (step_call (call_env c) (call_code c) (call_pc c) w).2.
Proof.
  intros [Hshape Hmono Hupper Hlower Hcache Hres].
  apply Forall2_app_inv_r in Hshape as (e1 & e2' & He1 & He2 & Heq).
  apply Forall2_cons_inv_r in He2 as (env & e2 & [Henv Hcode] & He2 & ->).
  assert (Hin : env ∈ envs) by (rewrite Heq; apply elem_of_app; right; left).
  apply Forall_app in Hres as [Hres1 Hres2].
  apply Forall_cons in Hres2 as [Hresc Hres2].
  rewrite count_waiting_middle in Hupper.
  pose proof (step_call_cases (call_env c) (call_code c) (call_pc c) w) as Hstep.
  rewrite Henv, Hcode in *.
  assert (Hshape' : forall p,
    Forall2 (fun env c => call_env c = env /\ call_code c = code)
            envs (l1 ++ with_pc c p :: l2)).
  { intros p. rewrite Heq. apply Forall2_app; [done|]. by constructor. }
  destruct (call_pc c) as [| |r|r] eqn:Hpc; rewrite Hstep; simpl.
  - (* the lookup *)
    destruct (get_cached (cache_key code) (time_get_cached env) (cache w))
      as [r|] eqn:Hget.
    + split; try done.
      * rewrite count_waiting_middle. unfold waiting in *. rewrite Hpc in Hupper.
        simpl. lia.
      * destruct Hlower as [[_ Hsame] | [Hex | Hlt]].
        -- by rewrite (uncached_at env w Hin Hsame) in Hget.
        -- right; left. apply Exists_app in Hex as [Hex|Hex];
             apply Exists_app; [by left|right].
           apply Exists_cons in Hex as [Hex|Hex]; [congruence|].
           by apply Exists_cons; right.
        -- by right; right.
      * apply Forall_app; split; [done|]. constructor; [|done]. simpl.
        destruct Hcache as [Hsame | (item & Hitem & Hfetched)].
        -- by rewrite (uncached_at env w Hin Hsame) in Hget.
        -- unfold get_cached in Hget. rewrite Hitem in Hget.
           destruct (_ <? _)%float; [|done]. by injection Hget as <-.
    + split; try done.
      * rewrite count_waiting_middle. unfold waiting in *. rewrite Hpc in Hupper.
        simpl. lia.
      * right; left. apply Exists_app; right. by apply Exists_cons; left.
      * apply Forall_app; split; [done|]. by constructor.
  - (* the fetch *)
    split; try done.
    + rewrite pipeline_runs_fetch. lia.
    + rewrite pipeline_runs_fetch, count_waiting_middle.
      unfold waiting in *. rewrite Hpc in Hupper. simpl. lia.
    + right; right. rewrite pipeline_runs_fetch. lia.
    + apply Forall_app; split; [done|]. constructor; [|done]. simpl.
      by exists env.
  - (* the store *)
    split; try done.
    + rewrite count_waiting_middle. unfold waiting in *. rewrite Hpc in Hupper.
      unfold pipeline_runs in *. simpl in *. lia.
    + destruct Hlower as [[Hall _] | [Hex | Hlt]].
      * apply Forall_app in Hall as [_ Hall]. apply Forall_cons in Hall as [Hc _].
        congruence.
      * right; left. apply Exists_app in Hex as [Hex|Hex];
          apply Exists_app; [by left|right].
        apply Exists_cons in Hex as [Hex|Hex]; [congruence|].
        by apply Exists_cons; right.
      * by right; right.
    + right. eexists. split; [apply lookup_insert_eq|]. simpl. exact Hresc.
    + apply Forall_app; split; [done|]. by constructor.
  - (* returned *)
    split; try done.
    + rewrite count_waiting_middle. unfold waiting in *. rewrite Hpc in Hupper.
      simpl in *. lia.
    + destruct Hlower as [[Hall _] | [Hex | Hlt]].
      * apply Forall_app in Hall as [_ Hall]. apply Forall_cons in Hall as [Hc _].
        congruence.
      * right; left. apply Exists_app in Hex as [Hex|Hex];
          apply Exists_app; [by left|right].
        apply Exists_cons in Hex as [Hex|Hex]; [congruence|].
        by apply Exists_cons; right.
      * by right; right.
    + apply Forall_app; split; [done|]. by constructor.
Qed.

Lemma inv_step i calls w :
  inv code envs w0 calls w ->
  inv code envs w0 (step_at i calls w).1 (step_at i calls w).2.
Proof.
  intros Hinv. destruct (calls !! i) as [c|] eqn:E.
  - destruct (list_elem_of_split_length calls i c E) as (l1 & l2 & -> & ->).
    rewrite step_at_middle.
    pose proof (inv_step_middle l1 c l2 w Hinv) as Hnext.
    by destruct (step_call (call_env c) (call_code c) (call_pc c) w).
  - by rewrite step_at_outside.
Qed.

Lemma inv_run schedule calls w :
  inv code envs w0 calls w ->
  inv code envs w0 (run schedule calls w).1 (run schedule calls w).2.
Proof.
  revert calls w. induction schedule as [|i rest IH]; intros calls w Hinv; [done|].
  simpl. cbv [mbind M_bind].
  pose proof (inv_step i calls w Hinv) as Hnext.
  destruct (step_at i calls w) as [calls' w']. by apply IH.
Qed.
End Coalescing.

Lemma step_call_rank env code p w :
  (Nat.min 3 (S (rank p)) <= rank (step_call env code p w).1)%nat.
Proof.
  pose proof (step_call_cases env code p w) as H.
  destruct p; rewrite H; cbn [fst rank]; try lia.
  destruct (get_cached _ _ _); cbn [rank]; lia.
Qed.

Lemma step_at_rank i j calls w c :
  calls !! j = Some c ->
  exists c', (step_at i calls w).1 !! j = Some c'
    /\ (Nat.min 3 (rank (call_pc c) + (if decide (i = j) then 1 else 0))
        <= rank (call_pc c'))%nat.
Proof.
  intros Hj. unfold step_at. destruct (calls !! i) as [ci|] eqn:Hi.
  - cbv [mbind M_bind mret M_ret].
    pose proof (step_call_rank (call_env ci) (call_code ci) (call_pc ci) w) as Hr.
    destruct (step_call (call_env ci) (call_code ci) (call_pc ci) w) as [p w'].
    cbn [fst snd] in Hr |- *. destruct (decide (i = j)) as [->|Hne].
    + rewrite list_lookup_insert_eq by (by apply lookup_lt_Some in Hj).
      eexists. split; [done|]. cbn [call_pc with_pc]. rewrite Hi in Hj. injection Hj as ->. lia.
    + rewrite list_lookup_insert_ne by done. exists c. split; [done|]. lia.
  - cbn [fst]. exists c. split; [done|]. destruct (decide (i = j)) as [->|]; [congruence|lia].
Qed.

Lemma run_rank schedule j calls w c :
  calls !! j = Some c ->
  exists c', (run schedule calls w).1 !! j = Some c'
    /\ (Nat.min 3 (rank (call_pc c) + count_occ Nat.eq_dec schedule j)
        <= rank (call_pc c'))%nat.
Proof.
  revert calls w c. induction schedule as [|i rest IH]; intros calls w c Hj.
  - exists c. split; [done|]. cbn [count_occ]. lia.
  - simpl run. cbv [mbind M_bind].
    destruct (step_at_rank i j calls w c Hj) as (c1 & Hc1 & Hr1).
    destruct (step_at i calls w) as [calls' w']. cbn [fst] in Hc1.
    destruct (IH calls' w' c1 Hc1) as (c2 & Hc2 & Hr2).
    exists c2. split; [done|]. cbn [count_occ].
    destruct (Nat.eq_dec i j) as [->|Hne].
    + rewrite decide_True in Hr1 by done. lia.
    + rewrite decide_False in Hr1 by done. lia.
Qed.

Lemma scheduled_to_completion_count n schedule j :
  scheduled_to_completion n schedule = true -> (j < n)%nat ->
  (3 <= count_occ Nat.eq_dec schedule j)%nat.
Proof.
  unfold scheduled_to_completion. rewrite forallb_forall. intros H Hj.
  apply Nat.leb_le, H, in_seq. lia.
Qed.

Lemma rank_returned p : (3 <= rank p)%nat -> exists r, p = Returned r.
Proof. destruct p; cbn [rank]; intros H; try lia. by eexists. Qed.

Lemma run_app s1 s2 calls w :
  run (s1 ++ s2) calls w = run s2 (run s1 calls w).1 (run s1 calls w).2.
Proof.
  revert calls w. induction s1 as [|i s1 IH]; intros calls w; [done|].
  simpl. cbv [mbind M_bind]. destruct (step_at i calls w) as [calls' w']. apply IH.
Qed.

Lemma run_seq_sweep done todo w :
  run (seq (length done) (length todo)) (done ++ todo) w =
  (done ++ (sweep todo w).1, (sweep todo w).2).
Proof.
  revert done w. induction todo as [|c rest IH]; intros done w.
  - simpl. by rewrite (right_id_L [] (++)).
  - cbn [length seq run sweep]. cbv [mbind M_bind]. rewrite step_at_middle.
    destruct (step_call (call_env c) (call_code c) (call_pc c) w) as [p w1].
    specialize (IH (done ++ [with_pc c p]) w1).
    rewrite length_app, Nat.add_1_r, <- (assoc_L (++)) in IH. simpl in IH.
    rewrite IH. destruct (sweep rest w1) as [cs w2]. simpl.
    by rewrite <- (assoc_L (++)).
Qed.

Lemma run_seq_all n calls w :
  n = length calls -> run (seq 0 n) calls w = sweep calls w.
Proof.
  intros ->. pose proof (run_seq_sweep [] calls w) as H. simpl in H. rewrite H.
  by destruct (sweep calls w).
Qed.

Section Lockstep.
Variables (code : string) (w0 : World).

Lemma sweep_lookup envs w :
  Forall (fun env =>
            get_cached (cache_key code) (time_get_cached env) (cache w) = None) envs ->
  sweep (at_pc code (fun _ => AtLookup) envs) w = (at_pc code (fun _ => AtFetch) envs, w).
Proof.
  induction 1 as [|env envs Hmiss _ IH]; [done|].
  unfold at_pc in *. rewrite !fmap_cons. cbn [sweep].
  pose proof (step_call_cases env code AtLookup w) as Hs. cbv beta iota in Hs.
  cbn [call_env call_code call_pc with_pc new_call]. rewrite Hs, Hmiss, IH.
  reflexivity.
Qed.

Lemma sweep_fetch envs w :
  sweep (at_pc code (fun _ => AtFetch) envs) w =
  (at_pc code (fun env => AtStore (fetched env code)) envs,
   {| cache := cache w;
      requests := requests w ++ concat ((fun _ => sent code) <$> envs) |}).
Proof.
  revert w. induction envs as [|env envs IH]; intros w.
  - simpl. rewrite (right_id_L [] (++)). by destruct w.
  - unfold at_pc in *. rewrite !fmap_cons. cbn [sweep].
    pose proof (step_call_cases env code AtFetch w) as Hs. cbv beta iota in Hs.
    cbn [call_env call_code call_pc with_pc new_call]. rewrite Hs, IH.
    cbn [cache requests concat]. by rewrite <- !(assoc_L (++)).
Qed.

Lemma sweep_store envs w :
  sweep (at_pc code (fun env => AtStore (fetched env code)) envs) w =
  (at_pc code (fun env => Returned (fetched env code)) envs,
   {| cache := stored code envs (cache w); requests := requests w |}).
Proof.
  revert w. induction envs as [|env envs IH]; intros w.
  - simpl. by destruct w.
  - unfold at_pc in *. rewrite !fmap_cons. cbn [sweep].
    pose proof (step_call_cases env code (AtStore (fetched env code)) w) as Hs.
    cbv beta iota in Hs.
    cbn [call_env call_code call_pc with_pc new_call]. rewrite Hs, IH.
    reflexivity.
Qed.

Lemma pipeline_runs_sent (envs : list Env) w :
  pipeline_runs code
    {| cache := cache w;
       requests := requests w ++ concat ((fun _ => sent code) <$> envs) |}
  = (pipeline_runs code w + length envs)%nat.
Proof.
  unfold pipeline_runs. cbn [requests]. rewrite List.filter_app, length_app.
  f_equal. induction envs as [|env envs IH]; [done|].
  rewrite fmap_cons. cbn [concat]. rewrite List.filter_app, length_app, IH.
  simpl. by rewrite String.eqb_refl.
Qed.

Lemma lockstep_run envs :
  Forall (fun env =>
            get_cached (cache_key code) (time_get_cached env) (cache w0) = None) envs ->
  run (lockstep (length envs)) ((fun env => new_call env code) <$> envs) w0 =
  (at_pc code (fun env => Returned (fetched env code)) envs,
   {| cache := stored code envs (cache w0);
      requests := requests w0 ++ concat ((fun _ => sent code) <$> envs) |}).
Proof.
  intros Hmiss. unfold lockstep. rewrite !run_app.
  assert (Hlen : forall p, length envs = length (at_pc code p envs))
    by (intros p; symmetry; apply length_fmap).
  change ((fun env => new_call env code) <$> envs) with (at_pc code (fun _ => AtLookup) envs).
  rewrite (run_seq_all _ _ w0 (Hlen _)), (sweep_lookup envs w0 Hmiss). cbn [fst snd].
  rewrite (run_seq_all _ _ w0 (Hlen _)), sweep_fetch. cbn [fst snd].
  rewrite (run_seq_all _ _ _ (Hlen _)), sweep_store. reflexivity.
Qed.
End Lockstep.

Lemma lookup_middle_other {A} (l1 : list A) (c c' : A) (l2 : list A) (j : nat) :
  j <> length l1 -> (l1 ++ c' :: l2) !! j = (l1 ++ c :: l2) !! j.
Proof.
  intros Hne. destruct (decide (j < length l1)%nat) as [Hlt|Hge].
  - by rewrite !lookup_app_l.
  - rewrite !lookup_app_r by lia.
    destruct (j - length l1)%nat as [|m] eqn:E; [lia|done].
Qed.

Lemma lookups_before_stores_split n schedule :
  lookups_before_stores n schedule = true ->
  exists first rest,
    schedule = first ++ rest
    /\ forall j, (j < n)%nat ->
         (1 <= count_occ Nat.eq_dec first j <= 2)%nat.
Proof.
  unfold lookups_before_stores. rewrite existsb_exists.
  intros (k & _ & Hall). exists (take k schedule), (drop k schedule).
  split; [by rewrite take_drop|]. intros j Hj.
  rewrite forallb_forall in Hall. specialize (Hall j).
  rewrite in_seq, andb_true_iff, !Nat.leb_le in Hall. apply Hall. lia.
Qed.

Section EveryCallFetches.
Variables (code : string) (envs : list Env) (w0 : World).
Hypothesis uncached :
  Forall (fun env =>
            get_cached (cache_key code) (time_get_cached env) (cache w0) = None) envs.

Lemma all_fetch_init :
  all_fetch code envs w0 ((fun env => new_call env code) <$> envs) w0.
Proof.
  split; [|split].
  - apply Forall2_fmap_r, Forall_Forall2_diag, Forall_forall. by intros env _.
  - by rewrite (count_waiting_new code).
  - apply Forall_fmap, Forall_forall. by intros env _.
Qed.

(** A move before the stores: a lookup that misses, or a fetch. *)
Lemma early_step_middle i todo l1 c l2 w :
  i = length l1 ->
  all_fetch code envs w0 (l1 ++ c :: l2) w ->
  before_stores code w0 (i :: todo) (l1 ++ c :: l2) w ->
  all_fetch code envs w0
    (l1 ++ with_pc c (step_call (call_env c) (call_code c) (call_pc c) w).1 :: l2)
    (step_call (call_env c) (call_code c) (call_pc c) w).2
  /\ before_stores code w0 todo
       (l1 ++ with_pc c (step_call (call_env c) (call_code c) (call_pc c) w).1 :: l2)
       (step_call (call_env c) (call_code c) (call_pc c) w).2.
Proof.
  intros -> (Hshape & Hruns & Hown) [Hcache Hbudget].
  pose proof (Hbudget (length l1) c (list_lookup_middle _ _ _ _ eq_refl)) as Hc.
  cbn [count_occ] in Hc. destruct (Nat.eq_dec (length l1) (length l1)) as [_|]; [|done].
  apply Forall2_app_inv_r in Hshape as (e1 & e2' & He1 & He2 & Heq).
  apply Forall2_cons_inv_r in He2 as (env & e2 & [Henv Hcode] & He2 & ->).
  assert (Hin : env ∈ envs) by (rewrite Heq; apply elem_of_app; right; left).
  assert (Hshape' : forall p,
    Forall2 (fun env c => call_env c = env /\ call_code c = code)
            envs (l1 ++ with_pc c p :: l2)).
  { intros p. rewrite Heq. apply Forall2_app; [done|]. by constructor. }
  apply Forall_app in Hown as [Hown1 Hown2].
  apply Forall_cons in Hown2 as [_ Hown2].
  rewrite count_waiting_middle in Hruns.
  assert (Hothers : forall p todo',
    (forall j, j <> length l1 ->
       count_occ Nat.eq_dec todo' j = count_occ Nat.eq_dec (length l1 :: todo) j) ->
    (rank p + count_occ Nat.eq_dec todo' (length l1) <= 2)%nat ->
    forall j c', (l1 ++ with_pc c p :: l2) !! j = Some c' ->
      (rank (call_pc c') + count_occ Nat.eq_dec todo' j <= 2)%nat).
  { intros p todo' Hcount Hp j c' Hj. destruct (decide (j = length l1)) as [->|Hne].
    - rewrite list_lookup_middle in Hj by done. by injection Hj as <-.
    - rewrite (lookup_middle_other _ c) in Hj by done.
      rewrite (Hcount j Hne). by apply Hbudget. }
  assert (Hcount : forall j, j <> length l1 ->
            count_occ Nat.eq_dec todo j = count_occ Nat.eq_dec (length l1 :: todo) j).
  { intros j Hne. cbn [count_occ]. by destruct (Nat.eq_dec (length l1) j); [subst|]. }
  pose proof (step_call_cases (call_env c) (call_code c) (call_pc c) w) as Hstep.
  rewrite Henv, Hcode in *. unfold waiting in Hruns.
  destruct (call_pc c) as [| |r|r] eqn:Hpc; cbn [rank] in Hc; try lia; rewrite Hstep.
  - (* the lookup misses *)
    rewrite (get_cached_ext _ _ _ _ Hcache).
    rewrite (proj1 (Forall_forall _ _) uncached env Hin). cbn [fst snd].
    split; [split; [done|split]|split; [done|]].
    + rewrite count_waiting_middle. unfold waiting. cbn [call_pc with_pc]. lia.
    + apply Forall_app; split; [done|]. by constructor.
    + apply Hothers; [done|]. cbn [rank]. lia.
  - (* the fetch *)
    cbn [fst snd]. split; [split; [done|split]|split; [done|]].
    + rewrite pipeline_runs_fetch, count_waiting_middle. unfold waiting.
      cbn [call_pc with_pc]. lia.
    + apply Forall_app; split; [done|]. constructor; [|done].
      unfold holds_own_fetch. cbn [call_pc call_env call_code with_pc].
      by rewrite Henv, Hcode.
    + apply Hothers; [done|]. cbn [rank]. lia.
Qed.

Lemma early_run todo calls w :
  all_fetch code envs w0 calls w ->
  before_stores code w0 todo calls w ->
  all_fetch code envs w0 (run todo calls w).1 (run todo calls w).2
  /\ before_stores code w0 [] (run todo calls w).1 (run todo calls w).2.
Proof.
  revert calls w. induction todo as [|i rest IH]; intros calls w Hall Hbefore; [done|].
  simpl. cbv [mbind M_bind].
  assert (Hnext : all_fetch code envs w0 (step_at i calls w).1 (step_at i calls w).2
                  /\ before_stores code w0 rest (step_at i calls w).1 (step_at i calls w).2).
  { destruct (calls !! i) as [c|] eqn:E.
    - destruct (list_elem_of_split_length calls i c E) as (l1 & l2 & -> & Hi).
      rewrite Hi, step_at_middle.
      pose proof (early_step_middle i rest l1 c l2 w Hi Hall Hbefore) as Hnext.
      by destruct (step_call (call_env c) (call_code c) (call_pc c) w).
    - rewrite step_at_outside by done. split; [done|].
      destruct Hbefore as [Hcache Hbudget]. split; [done|].
      intros j c Hj. specialize (Hbudget j c Hj). cbn [count_occ] in Hbudget.
      destruct (Nat.eq_dec i j); lia. }
  destruct (step_at i calls w) as [calls' w']. destruct Hnext. by apply IH.
Qed.

(** A move once every call has looked up and missed. *)
Lemma late_step_middle l1 c l2 w :
  all_fetch code envs w0 (l1 ++ c :: l2) w ->
  Forall (fun c => call_pc c <> AtLookup) (l1 ++ c :: l2) ->
  all_fetch code envs w0
    (l1 ++ with_pc c (step_call (call_env c) (call_code c) (call_pc c) w).1 :: l2)
    (step_call (call_env c) (call_code c) (call_pc c) w).2
  /\ Forall (fun c => call_pc c <> AtLookup)
       (l1 ++ with_pc c (step_call (call_env c) (call_code c) (call_pc c) w).1 :: l2).
Proof.
  intros (Hshape & Hruns & Hown) Hlate.
  apply Forall2_app_inv_r in Hshape as (e1 & e2' & He1 & He2 & Heq).
  apply Forall2_cons_inv_r in He2 as (env & e2 & [Henv Hcode] & He2 & ->).
  assert (Hshape' : forall p,
    Forall2 (fun env c => call_env c = env /\ call_code c = code)
            envs (l1 ++ with_pc c p :: l2)).
  { intros p. rewrite Heq. apply Forall2_app; [done|]. by constructor. }
  apply Forall_app in Hown as [Hown1 Hown2].
  apply Forall_cons in Hown2 as [Hownc Hown2].
  apply Forall_app in Hlate as [Hlate1 Hlate2].
  apply Forall_cons in Hlate2 as [Hlatec Hlate2].
  rewrite count_waiting_middle in Hruns.
  pose proof (step_call_cases (call_env c) (call_code c) (call_pc c) w) as Hstep.
  rewrite Henv, Hcode in *. unfold waiting in Hruns. unfold holds_own_fetch in Hownc.
  destruct (call_pc c) as [| |r|r] eqn:Hpc; [done| | |]; rewrite Hstep; cbn [fst snd].
  - split; [split; [done|split]|].
    + rewrite pipeline_runs_fetch, count_waiting_middle. unfold waiting.
      cbn [call_pc with_pc]. lia.
    + apply Forall_app; split; [done|]. constructor; [|done].
      unfold holds_own_fetch. cbn [call_pc call_env call_code with_pc].
      by rewrite Henv, Hcode.
    + apply Forall_app; split; [done|]. by constructor.
  - split; [split; [done|split]|].
    + rewrite count_waiting_middle. unfold waiting, pipeline_runs in *.
      cbn [call_pc with_pc requests] in *. lia.
    + apply Forall_app; split; [done|]. by constructor.
    + apply Forall_app; split; [done|]. by constructor.
  - split; [split; [done|split]|].
    + rewrite count_waiting_middle. unfold waiting. cbn [call_pc with_pc]. lia.
    + apply Forall_app; split; [done|]. by constructor.
    + apply Forall_app; split; [done|]. by constructor.
Qed.

Lemma late_run schedule calls w :
  all_fetch code envs w0 calls w ->
  Forall (fun c => call_pc c <> AtLookup) calls ->
  all_fetch code envs w0 (run schedule calls w).1 (run schedule calls w).2.
Proof.
  revert calls w. induction schedule as [|i rest IH]; intros calls w Hall Hlate; [done|].
  simpl. cbv [mbind M_bind].
  assert (Hnext : all_fetch code envs w0 (step_at i calls w).1 (step_at i calls w).2
                  /\ Forall (fun c => call_pc c <> AtLookup) (step_at i calls w).1).
  { destruct (calls !! i) as [c|] eqn:E.
    - destruct (list_elem_of_split_length calls i c E) as (l1 & l2 & -> & ->).
      rewrite step_at_middle.
      pose proof (late_step_middle l1 c l2 w Hall Hlate) as Hnext.
      by destruct (step_call (call_env c) (call_code c) (call_pc c) w).
    - by rewrite step_at_outside. }
  destruct (step_at i calls w) as [calls' w']. destruct Hnext. by apply IH.
Qed.

(** Every call looks up before any call stores: every call fetches. *)
Lemma lookups_first_run schedule :
  lookups_before_stores (length envs) schedule = true ->
  all_fetch code envs w0
    (run schedule ((fun env => new_call env code) <$> envs) w0).1
    (run schedule ((fun env => new_call env code) <$> envs) w0).2.
Proof.
  intros (first & rest & -> & Hfirst)%lookups_before_stores_split.
  rewrite run_app.
  set (calls := (fun env => new_call env code) <$> envs).
  destruct (early_run first calls w0 all_fetch_init) as [Hall [_ Hbudget]].
  { split; [done|]. intros j c Hj.
    assert (Hlt : (j < length envs)%nat).
    { apply lookup_lt_Some in Hj. unfold calls in Hj. by rewrite length_fmap in Hj. }
    unfold calls in Hj. rewrite list_lookup_fmap in Hj.
    destruct (envs !! j); [|done]. injection Hj as <-. cbn [call_pc new_call rank].
    specialize (Hfirst j Hlt). lia. }
  apply late_run; [done|].
  apply Forall_lookup. intros j c' Hj.
  assert (Hlt : (j < length envs)%nat).
  { apply lookup_lt_Some in Hj. destruct Hall as [Hshape _].
    by rewrite (Forall2_length _ _ _ Hshape). }
  destruct (lookup_lt_is_Some_2 calls j) as [c Hc];
    [by unfold calls; rewrite length_fmap|].
  destruct (run_rank first j calls w0 c Hc) as (c'' & Hc'' & Hrank).
  rewrite Hj in Hc''. injection Hc'' as <-.
  specialize (Hfirst j Hlt). intros Hpc. rewrite Hpc in Hrank. cbn [rank] in Hrank.
  unfold calls in Hc. rewrite list_lookup_fmap in Hc.
  destruct (envs !! j); [|done]. injection Hc as <-. cbn [call_pc new_call rank] in Hrank.
  lia.
Qed.

End EveryCallFetches.

Lemma count_waiting_returned (calls : list Call) :
  Forall (fun c => exists r, call_pc c = Returned r) calls -> count_waiting calls = 0%nat.
Proof.
  unfold count_waiting. induction 1 as [|c calls [r Hr] _ IH]; [done|].
  cbn [List.filter]. unfold waiting at 1. by rewrite Hr.
Qed.

(** C2, as stated, fails. Two calls for the same key, absent from the cache,
    that both look up before either stores: the pipeline runs twice, and the
    two callers receive different records. *)
Lemma two_concurrent_calls_two_fetches :
  cache world0 !! cache_key "000216" = None
  /\ pipeline_runs "000216" world0 = 0%nat
  /\ pipeline_runs "000216"
       (run [0; 1; 0; 1; 0; 1]%nat
            [new_call env_a "000216"; new_call env_b "000216"] world0).2 = 2%nat
  /\ result_of <$>
       (run [0; 1; 0; 1; 0; 1]%nat
            [new_call env_a "000216"; new_call env_b "000216"] world0).1
     = [Some (fetched env_a "000216"); Some (fetched env_b "000216")]
  /\ res_estimate (fetched env_a "000216") <> res_estimate (fetched env_b "000216").
Proof.
  repeat split.
  intros H.
  apply (f_equal (fun x => match x with
                           | Float f => (f =? 1.5)%float
                           | Int _ => false
                           end)) in H.
  vm_compute in H. discriminate H.
Qed.

(** C2, amended. [N] concurrent calls for the same key, absent or expired
    for each of them, all return, whatever the interleaving; the pipeline
    runs at least once and at most [N] times, and every caller receives the
    record that the fetch of one of the callers produced. When every call
    looks up before any call stores, in lockstep or in any other such
    interleaving, the pipeline runs [N] times and each caller receives the
    record of its own fetch. *)
Theorem concurrent_calls_not_coalesced (code : string) (envs : list Env)
    (w0 : World) (schedule : list nat) :
  envs <> [] ->
  Forall (fun env =>
            get_cached (cache_key code) (time_get_cached env) (cache w0) = None) envs ->
  scheduled_to_completion (length envs) schedule = true ->
  let calls := (fun env => new_call env code) <$> envs in
  all_returned (run schedule calls w0).1
  /\ (pipeline_runs code w0 < pipeline_runs code (run schedule calls w0).2
      <= pipeline_runs code w0 + length envs)%nat
  /\ Forall (fun c => exists r, result_of c = Some r /\ fetched_by_a_call code envs r)
            (run schedule calls w0).1
  /\ pipeline_runs code (run (lockstep (length envs)) calls w0).2
     = (pipeline_runs code w0 + length envs)%nat
  /\ result_of <$> (run (lockstep (length envs)) calls w0).1
     = (fun env => Some (fetched env code)) <$> envs
  /\ (lookups_before_stores (length envs) schedule = true ->
      pipeline_runs code (run schedule calls w0).2
        = (pipeline_runs code w0 + length envs)%nat
      /\ result_of <$> (run schedule calls w0).1
         = (fun env => Some (fetched env code)) <$> envs).
Proof.
  intros Hne Huncached Hsched calls.
  pose proof (inv_run code envs w0 Huncached schedule _ _
                (inv_init code envs w0)) as Hinv.
  fold calls in Hinv. set (out := run schedule calls w0) in *.
  destruct Hinv as [Hshape Hmono Hupper Hlower Hcache Hres].
  assert (Hlen : length out.1 = length envs).
  { symmetry. by eapply Forall2_length. }
  assert (Hret : Forall (fun c => exists r, call_pc c = Returned r) out.1).
  { apply Forall_lookup. intros j c' Hj.
    assert (Hjlt : (j < length envs)%nat)
      by (rewrite <- Hlen; by eapply lookup_lt_Some).
    destruct (lookup_lt_is_Some_2 calls j) as [c Hc];
      [by unfold calls; rewrite length_fmap|].
    destruct (run_rank schedule j _ w0 c Hc) as (c'' & Hc'' & Hrank).
    fold out in Hc''. rewrite Hj in Hc''. injection Hc'' as <-.
    pose proof (scheduled_to_completion_count _ _ j Hsched Hjlt).
    apply rank_returned. lia. }
  split; [|split; [split|split; [|split; [|split]]]].
  - apply Forall_forall. intros c Hin.
    destruct (proj1 (Forall_forall _ _) Hret c Hin) as [r Hr].
    unfold result_of. rewrite Hr. by eexists.
  - destruct Hlower as [[Hall _] | [Hex | Hlt]]; [| |done].
    + destruct out.1 as [|c cs]; [destruct envs; simpl in Hlen; congruence|].
      apply Forall_cons in Hall as [Hc _]. apply Forall_cons in Hret as [[r Hr] _].
      congruence.
    + apply Exists_exists in Hex as (c & Hin & Hc).
      destruct (proj1 (Forall_forall _ _) Hret c Hin) as [r Hr]. congruence.
  - lia.
  - apply Forall_forall. intros c Hin.
    destruct (proj1 (Forall_forall _ _) Hret c Hin) as [r Hr].
    pose proof (proj1 (Forall_forall _ _) Hres c Hin) as Hf.
    cbv beta in Hf. rewrite Hr in Hf.
    exists r. unfold result_of. by rewrite Hr.
  - unfold calls. rewrite (lockstep_run code w0 envs Huncached). cbn [snd].
    apply pipeline_runs_sent.
  - unfold calls. rewrite (lockstep_run code w0 envs Huncached). cbn [fst].
    unfold at_pc. rewrite <- list_fmap_compose. reflexivity.
  - intros Hfirst.
    destruct (lookups_first_run code envs w0 Huncached schedule Hfirst)
      as (Hshape2 & Hruns2 & Hown).
    fold calls in Hshape2, Hruns2, Hown. fold out in Hshape2, Hruns2, Hown.
    rewrite (count_waiting_returned _ Hret) in Hruns2. split; [lia|].
    apply list_eq_Forall2, Forall2_fmap, Forall2_flip.
    apply Forall2_same_length_lookup. split; [done|].
    intros j env c Hj Hc.
    destruct (Forall2_lookup_lr _ _ _ _ _ _ Hshape2 Hj Hc) as [Henv Hcode].
    destruct (proj1 (Forall_lookup _ _) Hret j c Hc) as [r Hr].
    pose proof (proj1 (Forall_lookup _ _) Hown j c Hc) as Ho.
    unfold holds_own_fetch in Ho. rewrite Hr, Henv, Hcode in Ho.
    unfold result_of. by rewrite Hr, Ho.
Qed.

(** Two calls that both look up before either stores, not in lockstep. *)
Lemma concurrent_calls_not_coalesced_witness :
  all_returned
    (run [0; 0; 1; 1; 0; 1]%nat ((fun env => new_call env "000216") <$> [env_a; env_b])
         world0).1
  /\ pipeline_runs "000216"
       (run [0; 0; 1; 1; 0; 1]%nat
            ((fun env => new_call env "000216") <$> [env_a; env_b]) world0).2
     = (pipeline_runs "000216" world0 + 2)%nat
  /\ result_of <$>
       (run [0; 0; 1; 1; 0; 1]%nat
            ((fun env => new_call env "000216") <$> [env_a; env_b]) world0).1
     = [Some (fetched env_a "000216"); Some (fetched env_b "000216")].
Proof.
  destruct (concurrent_calls_not_coalesced "000216" [env_a; env_b] world0
              [0; 0; 1; 1; 0; 1]%nat)
    as (Hret & _ & _ & _ & _ & Hfirst).
  - discriminate.
  - repeat constructor.
  - reflexivity.
  - destruct (Hfirst eq_refl) as [Hruns Hres].
    exact (conj Hret (conj Hruns Hres)).
Defined.

Example sequential_calls_one_fetch :
  pipeline_runs "000216"
    (run [0; 0; 0; 1; 1; 1]%nat
         [new_call env_a "000216"; new_call env_b "000216"] world0).2 = 1%nat
  /\ result_of <$>
       (run [0; 0; 0; 1; 1; 1]%nat
            [new_call env_a "000216"; new_call env_b "000216"] world0).1
     = [Some (fetched env_a "000216"); Some (fetched env_a "000216")].
Proof. split; reflexivity. Qed.

(** ** The batch endpoint *)

Lemma lstrip_empty_iff s : lstrip s = "" <-> blank s = true.
Proof.
  induction s as [|c s IH]; simpl; [done|].
  destruct (is_space c); simpl; [exact IH | split; discriminate].
Qed.

Lemma lstrip_head s c rest : lstrip s = String c rest -> is_space c = false.
Proof.
  induction s as [|a s IH]; simpl; [discriminate|].
  destruct (is_space a) eqn:E; [exact IH | congruence].
Qed.

Lemma rstrip_empty_iff s : rstrip s = "" <-> blank s = true.
Proof.
  induction s as [|c s IH]; simpl; [done|].
  destruct (rstrip s) eqn:E.
  - destruct (is_space c); simpl; [| split; discriminate].
    split; intros _; [by apply IH | done].
  - split; [discriminate|]. intros [_ H]%andb_true_iff.
    apply IH in H. discriminate.
Qed.

Lemma strip_empty_iff s : strip s = "" <-> blank s = true.
Proof.
  unfold strip. rewrite rstrip_empty_iff. split.
  - intros H. destruct (lstrip s) as [|c rest] eqn:E.
    + by apply lstrip_empty_iff.
    + apply lstrip_head in E. simpl in H. by rewrite E in H.
  - intros H. apply lstrip_empty_iff in H. by rewrite H.
Qed.

Lemma nonempty_strip s : nonempty (strip s) = negb (blank s).
Proof.
  unfold nonempty. destruct (blank s) eqn:E; simpl.
  - apply strip_empty_iff in E. by rewrite E.
  - destruct (String.eqb_spec (strip s) "") as [H|H]; [|done].
    apply strip_empty_iff in H. congruence.
Qed.

Lemma parse_codes_filter param :
  parse_codes param =
  strip <$> List.filter (fun c => negb (blank c)) (split_comma (default "" param)).
Proof.
  unfold parse_codes. f_equal. apply List.filter_ext. intros c. apply nonempty_strip.
Qed.

Lemma split_comma_blank s :
  only_commas_and_blanks s = true -> Forall (fun c => blank c = true) (split_comma s).
Proof.
  induction s as [|c s IH]; simpl; [by repeat constructor|].
  intros [Hc Hs]%andb_true_iff. specialize (IH Hs).
  destruct (Ascii.eqb c ",") eqn:E; simpl in Hc.
  - by constructor.
  - destruct (split_comma s) as [|piece pieces].
    + constructor; [by simpl; rewrite Hc | done].
    + inversion IH as [|? ? Hp Hps]; subst. constructor; [|done].
      simpl. by rewrite Hc, Hp.
Qed.

Lemma filter_blank_nil pieces :
  Forall (fun c => blank c = true) pieces ->
  List.filter (fun c => negb (blank c)) pieces = [].
Proof.
  induction 1 as [|c pieces Hc _ IH]; simpl; [done|]. by rewrite Hc.
Qed.

Lemma parse_codes_only_blanks s :
  only_commas_and_blanks s = true -> parse_codes (Some s) = [].
Proof.
  intros H. rewrite parse_codes_filter. simpl.
  by rewrite (filter_blank_nil _ (split_comma_blank _ H)).
Qed.

Section BatchFacts.
Variable pool : list string -> M (list (string * Outcome FundResult)).

Lemma get_funds_empty param w :
  parse_codes param = [] -> get_funds pool param w = (Failure NoCodes, w).
Proof. intros H. unfold get_funds. by rewrite H. Qed.

Lemma get_funds_too_many param w :
  (50 < length (parse_codes param))%nat ->
  get_funds pool param w = (Failure TooManyCodes, w).
Proof.
  intros H. unfold get_funds.
  destruct (parse_codes param) as [|c cs] eqn:E; [simpl in H; lia|].
  apply Nat.ltb_lt in H. by rewrite H.
Qed.

Lemma get_funds_accepted param w :
  parse_codes param <> [] -> (length (parse_codes param) <= 50)%nat ->
  get_funds pool param w =
    let (futures, w') := pool (parse_codes param) w in
    (Success (collect futures), w').
Proof.
  intros Hne Hle. unfold get_funds.
  destruct (parse_codes param) as [|c cs] eqn:E; [done|].
  destruct (50 <? length (c :: cs))%nat eqn:Hlt.
  - apply Nat.ltb_lt in Hlt. lia.
  - reflexivity.
Qed.

Lemma collect_lookup_acc futures (acc : gmap string Entry) code :
  foldl (fun results (f : string * Outcome FundResult) =>
           <[f.1 := entry_of f.2]> results) acc futures !! code =
  match outcome_for code futures with
  | Some o => Some (entry_of o)
  | None => acc !! code
  end.
Proof.
  revert acc. induction futures as [|f rest IH]; intros acc; simpl; [done|].
  rewrite IH. destruct (outcome_for code rest); [done|].
  destruct (decide (f.1 = code)) as [<-|Hne].
  - by rewrite lookup_insert_eq.
  - by rewrite lookup_insert_ne.
Qed.

Lemma collect_lookup futures code :
  collect futures !! code = entry_of <$> outcome_for code futures.
Proof.
  unfold collect. rewrite collect_lookup_acc.
  destruct (outcome_for code futures); by rewrite ?lookup_empty.
Qed.

Lemma outcome_for_is_Some code futures :
  code ∈ futures.*1 -> is_Some (outcome_for code futures).
Proof.
  induction futures as [|f rest IH]; simpl; [by intros ?%elem_of_nil|].
  intros [->|Hin]%elem_of_cons.
  - destruct (outcome_for (f.1) rest); [eauto|]. rewrite decide_True; eauto.
  - destruct (IH Hin) as [o ->]. eauto.
Qed.

End BatchFacts.

(** C7. Validation of a batch. When the list of codes read from the request
    is empty, or longer than 50, [get_funds] answers with the refusal (the
    message of line 232, resp. of line 238) and leaves the state as it is,
    whatever the workers would do: no future is submitted, so no cache lookup
    is made and no request is sent. *)
Theorem batch_validation (pool : list string -> M (list (string * Outcome FundResult)))
    (param : option string) (w : World) :
  parse_codes param = [] \/ (50 < length (parse_codes param))%nat ->
  get_funds pool param w =
    (Failure (match parse_codes param with [] => NoCodes | _ => TooManyCodes end), w).
Proof.
  intros [Hnil | Hlong].
  - rewrite Hnil. by apply get_funds_empty.
  - rewrite (get_funds_too_many _ _ _ Hlong).
    destruct (parse_codes param); [simpl in Hlong; lia | done].
Qed.

(** A request with 51 codes. *)
Lemma batch_validation_witness :
  (50 < length (parse_codes (Some (String.concat "," (replicate 51 "000216")))))%nat
  /\ get_funds (server_pool (fun _ => env_down) no_fault [])
       (Some (String.concat "," (replicate 51 "000216"))) world0 =
     (Failure TooManyCodes, world0).
Proof.
  split.
  - vm_compute. lia.
  - apply (batch_validation (server_pool (fun _ => env_down) no_fault [])
             (Some (String.concat "," (replicate 51 "000216"))) world0).
    right. vm_compute. lia.
Defined.

(** ** The pool of a batch *)

Lemma step_worker_cases (k : Worker) (w : World) :
  step_worker k w =
  match worker_at k with
  | Raised e => (Raised e, w)
  | Calling AtLookup =>
      (Calling (match get_cached (cache_key (worker_code k))
                        (time_get_cached (worker_env k)) (cache w) with
                | Some r => Returned r
                | None => AtFetch
                end), w)
  | Calling AtFetch =>
      match worker_fault k with
      | Some f =>
          (Raised (fault_error f),
           {| cache := cache w;
              requests := requests w ++ take (fault_sent f) (sent (worker_code k)) |})
      | None =>
          (Calling (AtStore (fetched (worker_env k) (worker_code k))),
           {| cache := cache w; requests := requests w ++ sent (worker_code k) |})
      end
  | Calling (AtStore r) =>
      (Calling (Returned r),
       {| cache := set_cache (cache_key (worker_code k)) r
                             (time_set_cache (worker_env k)) (cache w);
          requests := requests w |})
  | Calling (Returned r) => (Calling (Returned r), w)
  end.
Proof.
  unfold step_worker.
  destruct (worker_at k) as [[| |r|r]|e]; try reflexivity.
  destruct (worker_fault k); [reflexivity|].
  pose proof (step_call_cases (worker_env k) (worker_code k) AtFetch w) as H.
  cbv beta iota in H. cbv [mbind M_bind mret M_ret]. by rewrite H.
Qed.

Lemma pool_step_Some i workers k w :
  workers !! i = Some k ->
  pool_step i workers w =
  (<[i := with_at k (step_worker k w).1]> workers, (step_worker k w).2).
Proof.
  intros H. unfold pool_step. rewrite H. cbv [mbind M_bind mret M_ret].
  by destruct (step_worker k w).
Qed.

Lemma pool_step_None i workers w :
  workers !! i = None -> pool_step i workers w = (workers, w).
Proof. intros H. unfold pool_step. by rewrite H. Qed.

Lemma pool_step_lookup_eq i workers k w :
  workers !! i = Some k ->
  (pool_step i workers w).1 !! i = Some (with_at k (step_worker k w).1).
Proof.
  intros H. rewrite (pool_step_Some _ _ _ _ H). cbn [fst].
  apply list_lookup_insert_eq. by eapply lookup_lt_Some.
Qed.

Lemma pool_step_lookup_ne i j workers w :
  i <> j -> (pool_step i workers w).1 !! j = workers !! j.
Proof.
  intros Hne. destruct (workers !! i) as [k|] eqn:Hi.
  - rewrite (pool_step_Some _ _ _ _ Hi). cbn [fst]. by apply list_lookup_insert_ne.
  - by rewrite (pool_step_None _ _ _ Hi).
Qed.

Lemma pool_run_cons i rest workers w :
  pool_run (i :: rest) workers w =
  pool_run rest (pool_step i workers w).1 (pool_step i workers w).2.
Proof. simpl. cbv [mbind M_bind]. by destruct (pool_step i workers w). Qed.

Lemma pool_run_app s1 s2 workers w :
  pool_run (s1 ++ s2) workers w =
  pool_run s2 (pool_run s1 workers w).1 (pool_run s1 workers w).2.
Proof.
  revert workers w. induction s1 as [|i s1 IH]; intros workers w; [done|].
  rewrite <- app_comm_cons, !pool_run_cons. apply IH.
Qed.

(** What every step keeps, a run keeps. *)
Lemma pool_run_keeps (P : list Worker -> World -> Prop) :
  (forall i workers w, P workers w ->
     P (pool_step i workers w).1 (pool_step i workers w).2) ->
  forall schedule workers w,
    P workers w -> P (pool_run schedule workers w).1 (pool_run schedule workers w).2.
Proof.
  intros Hstep schedule. induction schedule as [|i rest IH]; intros workers w HP; [done|].
  rewrite pool_run_cons. by apply IH, Hstep.
Qed.

(** A step changes what a worker has reached, and nothing else of it. *)
Lemma pool_step_shape i workers w :
  (fun k => with_at k (Calling AtLookup)) <$> (pool_step i workers w).1
  = (fun k => with_at k (Calling AtLookup)) <$> workers.
Proof.
  destruct (workers !! i) as [k|] eqn:Hi.
  - rewrite (pool_step_Some _ _ _ _ Hi). cbn [fst]. rewrite list_fmap_insert.
    apply list_insert_id. rewrite list_lookup_fmap, Hi. reflexivity.
  - by rewrite (pool_step_None _ _ _ Hi).
Qed.

Lemma pool_run_shape schedule workers w :
  (fun k => with_at k (Calling AtLookup)) <$> (pool_run schedule workers w).1
  = (fun k => with_at k (Calling AtLookup)) <$> workers.
Proof.
  apply (pool_run_keeps (fun ws _ =>
    (fun k => with_at k (Calling AtLookup)) <$> ws
    = (fun k => with_at k (Calling AtLookup)) <$> workers)); [|done].
  intros i ws w' H. by rewrite pool_step_shape.
Qed.

Lemma submit_from_lookup envs faults i codes j :
  submit_from envs faults i codes !! j =
  (fun code => new_worker (envs (i + j)%nat) (faults (i + j)%nat) code) <$> codes !! j.
Proof.
  revert i j. induction codes as [|code rest IH]; intros i j; [done|].
  destruct j as [|j]; simpl.
  - by rewrite Nat.add_0_r.
  - rewrite IH. by replace (S i + j)%nat with (i + S j)%nat by lia.
Qed.

Lemma submit_from_length envs faults i codes :
  length (submit_from envs faults i codes) = length codes.
Proof. revert i. induction codes as [|code rest IH]; intros i; simpl; [done|]. by rewrite IH. Qed.

Lemma submit_from_shape envs faults i codes :
  (fun k => with_at k (Calling AtLookup)) <$> submit_from envs faults i codes
  = submit_from envs faults i codes.
Proof.
  revert i. induction codes as [|code rest IH]; intros i; simpl; [done|].
  by rewrite IH.
Qed.

(** The workers of a pool after any run: the worker number [j] is the one
    submitted for the code number [j]. *)
Lemma pool_run_submitted envs faults codes schedule w j :
  (pool_run schedule (submit_from envs faults 0 codes) w).1 !! j = None
  /\ codes !! j = None
  \/ exists k code,
       (pool_run schedule (submit_from envs faults 0 codes) w).1 !! j = Some k
       /\ codes !! j = Some code
       /\ worker_env k = envs j /\ worker_fault k = faults j /\ worker_code k = code.
Proof.
  pose proof (pool_run_shape schedule (submit_from envs faults 0 codes) w) as Hs.
  rewrite submit_from_shape in Hs.
  apply (f_equal (fun l => l !! j)) in Hs.
  rewrite list_lookup_fmap, submit_from_lookup in Hs. cbn [Nat.add] in Hs.
  destruct ((pool_run schedule (submit_from envs faults 0 codes) w).1 !! j) as [k|];
    destruct (codes !! j) as [code|]; simpl in Hs; try done.
  - right. exists k, code. injection Hs as He Hf Hc. done.
  - by left.
Qed.

Lemma pool_run_length schedule workers w :
  length (pool_run schedule workers w).1 = length workers.
Proof.
  pose proof (pool_run_shape schedule workers w) as Hs.
  apply (f_equal length) in Hs. by rewrite !length_fmap in Hs.
Qed.

(** *** Every worker is run to its end *)

Lemma step_worker_rank k w :
  (Nat.min 3 (S (progress_rank (worker_at k)))
   <= progress_rank (step_worker k w).1)%nat.
Proof.
  rewrite step_worker_cases.
  destruct (worker_at k) as [[| |r|r]|e]; cbn [fst progress_rank rank]; try lia.
  - destruct (get_cached _ _ _); cbn [rank]; lia.
  - destruct (worker_fault k); cbn [fst progress_rank rank]; lia.
Qed.

Lemma pool_step_rank i j workers w k :
  workers !! j = Some k ->
  exists k', (pool_step i workers w).1 !! j = Some k'
    /\ (Nat.min 3 (progress_rank (worker_at k) + (if decide (i = j) then 1 else 0))
        <= progress_rank (worker_at k'))%nat.
Proof.
  intros Hj. destruct (decide (i = j)) as [->|Hne].
  - rewrite (pool_step_lookup_eq _ _ _ _ Hj). eexists. split; [done|].
    cbn [worker_at with_at]. pose proof (step_worker_rank k w). lia.
  - rewrite (pool_step_lookup_ne _ _ _ _ Hne). exists k. split; [done|]. lia.
Qed.

Lemma pool_run_rank schedule j workers w k :
  workers !! j = Some k ->
  exists k', (pool_run schedule workers w).1 !! j = Some k'
    /\ (Nat.min 3 (progress_rank (worker_at k) + count_occ Nat.eq_dec schedule j)
        <= progress_rank (worker_at k'))%nat.
Proof.
  revert workers w k. induction schedule as [|i rest IH]; intros workers w k Hj.
  - exists k. split; [done|]. cbn [count_occ]. lia.
  - rewrite pool_run_cons.
    destruct (pool_step_rank i j workers w k Hj) as (k1 & Hk1 & Hr1).
    destruct (IH _ (pool_step i workers w).2 k1 Hk1) as (k2 & Hk2 & Hr2).
    exists k2. split; [done|]. cbn [count_occ].
    destruct (Nat.eq_dec i j) as [->|Hne].
    + rewrite decide_True in Hr1 by done. lia.
    + rewrite decide_False in Hr1 by done. lia.
Qed.

Lemma count_occ_seq (start n j : nat) :
  (start <= j < start + n)%nat -> count_occ Nat.eq_dec (seq start n) j = 1%nat.
Proof.
  revert start. induction n as [|n IH]; intros start Hj; [lia|].
  cbn [seq count_occ]. destruct (Nat.eq_dec start j) as [->|Hne].
  - f_equal. apply count_occ_not_In. rewrite in_seq. lia.
  - apply IH. lia.
Qed.

Lemma count_occ_lockstep schedule n j :
  (j < n)%nat -> (3 <= count_occ Nat.eq_dec (schedule ++ lockstep n) j)%nat.
Proof.
  intros Hj. unfold lockstep. rewrite !count_occ_app, !count_occ_seq by lia. lia.
Qed.

Lemma progress_rank_done a :
  (3 <= progress_rank a)%nat -> (exists r, a = Calling (Returned r)) \/ exists e, a = Raised e.
Proof.
  destruct a as [[| |r|r]|e]; cbn [progress_rank rank]; intros H; try lia; eauto.
Qed.

Lemma pool_done schedule workers w j k :
  (pool_run (schedule ++ lockstep (length workers)) workers w).1 !! j = Some k ->
  (exists r, worker_at k = Calling (Returned r)) \/ exists e, worker_at k = Raised e.
Proof.
  intros Hk.
  assert (Hlt : (j < length workers)%nat).
  { rewrite <- (pool_run_length (schedule ++ lockstep (length workers)) workers w).
    by eapply lookup_lt_Some. }
  destruct (lookup_lt_is_Some_2 workers j Hlt) as [k0 Hk0].
  destruct (pool_run_rank (schedule ++ lockstep (length workers)) j workers w k0 Hk0)
    as (k' & Hk' & Hr).
  rewrite Hk in Hk'. injection Hk' as <-.
  pose proof (count_occ_lockstep schedule (length workers) j Hlt).
  apply progress_rank_done. lia.
Qed.



Lemma shape_lookup envs faults codes (ws : list Worker) j k :
  (fun k => with_at k (Calling AtLookup)) <$> ws = submit_from envs faults 0 codes ->
  ws !! j = Some k ->
  codes !! j = Some (worker_code k)
  /\ worker_env k = envs j /\ worker_fault k = faults j.
Proof.
  intros Hs Hk. apply (f_equal (fun l => l !! j)) in Hs.
  rewrite list_lookup_fmap, submit_from_lookup, Hk in Hs. cbn [Nat.add] in Hs.
  destruct (codes !! j) as [code|]; simpl in Hs; [|done].
  injection Hs as He Hf Hc. by subst.
Qed.

Lemma pool_run_submitted_shape envs faults codes schedule w :
  (fun k => with_at k (Calling AtLookup))
    <$> (pool_run schedule (submit_from envs faults 0 codes) w).1
  = submit_from envs faults 0 codes.
Proof. by rewrite pool_run_shape, submit_from_shape. Qed.

(** *** Errors come from the worker's own fault *)

Lemma pool_run_raised schedule workers w :
  Forall raised_own_fault workers ->
  Forall raised_own_fault (pool_run schedule workers w).1.
Proof.
  apply (pool_run_keeps (fun ws _ => Forall raised_own_fault ws)).
  clear. intros i ws w Hall. destruct (ws !! i) as [k|] eqn:Hi.
  - rewrite (pool_step_Some _ _ _ _ Hi). cbn [fst]. apply Forall_insert; [done|].
    pose proof (proj1 (Forall_lookup _ _) Hall i k Hi) as Hk.
    unfold raised_own_fault in *. cbn [worker_at worker_fault with_at].
    rewrite step_worker_cases.
    destruct (worker_at k) as [[| |r|r]|e]; cbn [fst]; try done.
    + destruct (worker_fault k) as [f|]; cbn [fst]; [by exists f | done].
  - by rewrite (pool_step_None _ _ _ Hi).
Qed.

Lemma submit_from_raised envs faults i codes :
  Forall raised_own_fault (submit_from envs faults i codes).
Proof.
  revert i. induction codes as [|code rest IH]; intros i; simpl; by constructor.
Qed.

(** *** A worker alone on its code *)



(** *** The workers of the other codes *)




(** *** The answer of an accepted batch *)

Lemma collect_dom_acc (futures : list (string * Outcome FundResult))
    (acc : gmap string Entry) :
  dom (foldl (fun results f => <[f.1 := entry_of f.2]> results) acc futures)
  = dom acc ∪ list_to_set futures.*1.
Proof.
  revert acc. induction futures as [|f rest IH]; intros acc; cbn [foldl].
  - rewrite fmap_nil, list_to_set_nil. by rewrite (right_id_L ∅ (∪)).
  - rewrite IH, dom_insert_L, fmap_cons, list_to_set_cons.
    by rewrite (comm_L (∪) {[f.1]} (dom acc)), <- (assoc_L (∪)).
Qed.

Lemma collect_dom (futures : list (string * Outcome FundResult)) :
  dom (collect futures) = list_to_set futures.*1.
Proof. unfold collect. by rewrite collect_dom_acc, dom_empty_L, (left_id_L ∅ (∪)). Qed.


Lemma submit_from_codes envs faults i codes :
  worker_code <$> submit_from envs faults i codes = codes.
Proof.
  revert i. induction codes as [|code rest IH]; intros i; simpl; [done|]. by rewrite IH.
Qed.

Lemma server_pool_eq envs faults schedule codes w :
  server_pool envs faults schedule codes w =
  ((fun k => (worker_code k, future_result k))
     <$> (pool_run (schedule ++ lockstep (length codes))
                   (submit_from envs faults 0 codes) w).1,
   (pool_run (schedule ++ lockstep (length codes))
             (submit_from envs faults 0 codes) w).2).
Proof.
  unfold server_pool. cbv [mbind M_bind mret M_ret].
  by destruct (pool_run _ _ w).
Qed.

Lemma server_pool_codes envs faults schedule codes w :
  (server_pool envs faults schedule codes w).1.*1 = codes.
Proof.
  rewrite server_pool_eq. cbn [fst]. rewrite <- list_fmap_compose.
  pose proof (pool_run_submitted_shape envs faults codes
                (schedule ++ lockstep (length codes)) w) as Hs.
  apply (f_equal (fmap worker_code)) in Hs.
  rewrite <- list_fmap_compose, submit_from_codes in Hs. exact Hs.
Qed.





(** C10. Parsing of the batch parameter. The codes are the pieces of the
    parameter between commas that are not blank (empty or white space only),
    each stripped; this happens before both checks. So a parameter made of
    commas and white space only (or a missing one) is refused with the message
    of the empty list, the empty-list refusal is exactly the case where no
    piece is left, and the refusal for size counts the pieces that are not
    blank: blank pieces do not count toward the cap of 50. *)
Theorem blank_entries_discarded (pool : list string -> M (list (string * Outcome FundResult)))
    (param : option string) (w : World) :
  let kept := List.filter (fun c => negb (blank c)) (split_comma (default "" param)) in
  parse_codes param = strip <$> kept
  /\ (only_commas_and_blanks (default "" param) = true ->
      get_funds pool param w = (Failure NoCodes, w))
  /\ (get_funds pool param w = (Failure NoCodes, w) <-> kept = [])
  /\ (get_funds pool param w = (Failure TooManyCodes, w) <-> (50 < length kept)%nat).
Proof.
  intros kept.
  assert (Hparse : parse_codes param = strip <$> kept) by apply parse_codes_filter.
  assert (Hlen : length (parse_codes param) = length kept)
    by (rewrite Hparse; apply length_fmap).
  assert (Hnil : parse_codes param = [] <-> kept = []).
  { rewrite Hparse. destruct kept; simpl; split; congruence. }
  split; [exact Hparse|]. split; [|split].
  - intros Hblank. apply get_funds_empty.
    destruct param as [s|]; [by apply parse_codes_only_blanks | reflexivity].
  - split.
    + intros Hget. apply Hnil.
      destruct (decide (parse_codes param = [])) as [E|E]; [done|].
      destruct (decide (50 < length (parse_codes param))%nat) as [Hlong|Hshort].
      * rewrite (get_funds_too_many pool param w Hlong) in Hget. discriminate.
      * rewrite (get_funds_accepted pool param w) in Hget; [| done | lia].
        destruct (pool (parse_codes param) w). discriminate.
    + intros Hk. apply get_funds_empty. by apply Hnil.
  - split.
    + intros Hget. rewrite <- Hlen.
      destruct (decide (50 < length (parse_codes param))%nat) as [Hlong|Hshort]; [done|].
      destruct (decide (parse_codes param = [])) as [E|E].
      * rewrite (get_funds_empty pool param w E) in Hget. discriminate.
      * rewrite (get_funds_accepted pool param w) in Hget; [| done | lia].
        destruct (pool (parse_codes param) w). discriminate.
    + intros Hlong. apply get_funds_too_many. by rewrite Hlen.
Qed.

(** Blank entries are dropped; a request of commas and blanks is refused as
    empty. *)
Lemma blank_entries_discarded_witness :
  parse_codes (Some " 000216, ,320007,,") = ["000216"; "320007"]
  /\ get_funds (server_pool (fun _ => env_down) no_fault []) (Some " , ,, ") world0 =
       (Failure NoCodes, world0).
Proof.
  split.
  - rewrite (proj1 (blank_entries_discarded (server_pool (fun _ => env_down) no_fault [])
                      (Some " 000216, ,320007,,") world0)).
    reflexivity.
  - apply (proj1 (proj2 (blank_entries_discarded (server_pool (fun _ => env_down) no_fault [])
                           (Some " , ,, ") world0))).
    reflexivity.
Defined.

(** Fifty codes among blank entries pass the validation. *)
Example fifty_codes_and_blanks_accepted :
  exists results w',
    get_funds (server_pool (fun _ => env_down) no_fault [])
      (Some (" , ,," ++ String.concat " ,, " (replicate 50 "000216") ++ ",,")%string) world0
    = (Success results, w').
Proof. vm_compute. eauto. Qed.

(** ** The fetch of all sources *)

#[global] Instance source_name_inj : Inj (=) (=) source_name.
Proof. intros [] []; simpl; intros H; first [reflexivity | discriminate H]. Qed.

Section FundAPIFacts.
Context {Dict : Type}.
Variable task : Source -> string -> M (Outcome (option Dict)).

Lemma submit_tasks_sources sources code w :
  (submit_tasks task sources code w).1.*1 = sources.
Proof.
  revert w. induction sources as [|s rest IH]; intros w; simpl; [done|].
  cbv [mbind M_bind mret M_ret].
  destruct (task s code w) as [o w1]. specialize (IH w1).
  destruct (submit_tasks task rest code w1) as [fs w2].
  simpl in IH |- *. f_equal. exact IH.
Qed.

Lemma gather_acc_other (completed : list (Source * Outcome (option Dict)))
    (acc : gmap string (option Dict)) (s : Source) :
  s ∉ completed.*1 ->
  foldl (fun results f => <[source_name f.1 := recorded f.2]> results)
        acc completed !! source_name s = acc !! source_name s.
Proof.
  revert acc. induction completed as [|f rest IH]; intros acc Hnot; simpl; [done|].
  rewrite fmap_cons in Hnot. apply not_elem_of_cons in Hnot as [Hne Hrest].
  rewrite (IH _ Hrest). apply lookup_insert_ne. intros Heq.
  apply Hne. symmetry. by apply (inj source_name).
Qed.

Lemma gather_acc_lookup (completed : list (Source * Outcome (option Dict)))
    (acc : gmap string (option Dict)) (s : Source) (o : Outcome (option Dict)) :
  NoDup completed.*1 -> (s, o) ∈ completed ->
  foldl (fun results f => <[source_name f.1 := recorded f.2]> results)
        acc completed !! source_name s = Some (recorded o).
Proof.
  revert acc. induction completed as [|f rest IH]; intros acc Hnd Hin;
    [by apply elem_of_nil in Hin|].
  rewrite fmap_cons in Hnd. apply NoDup_cons in Hnd as [Hfresh Hnd].
  apply elem_of_cons in Hin as [<- | Hin]; simpl.
  - rewrite gather_acc_other by done. apply lookup_insert_eq.
  - by apply IH.
Qed.

Lemma gather_acc_dom (completed : list (Source * Outcome (option Dict)))
    (acc : gmap string (option Dict)) :
  dom (foldl (fun results f => <[source_name f.1 := recorded f.2]> results)
             acc completed)
  = dom acc ∪ list_to_set (source_name <$> completed.*1).
Proof.
  revert acc. induction completed as [|f rest IH]; intros acc; cbn [foldl].
  - rewrite !fmap_nil, list_to_set_nil. by rewrite (right_id_L ∅ (∪)).
  - rewrite IH, dom_insert_L, !fmap_cons, list_to_set_cons.
    by rewrite (comm_L (∪) {[source_name f.1]} (dom acc)), <- (assoc_L (∪)).
Qed.
End FundAPIFacts.

Lemma merge_keeps_estimate code e nav detail now :
  res_estimate (merge code (Some e) nav detail now) = Float (est_gsz e).
Proof.
  unfold merge.
  destruct (recommend_other (fill_nav nav (fill_estimate (Some e) (fill_detail detail
             (initial_result code (Some e) nav detail now)))))
    as (_ & _ & -> & _).
  destruct nav, detail; reflexivity.
Qed.

Lemma merge_keeps_nav code estimate n detail now :
  res_nav (merge code estimate (Some n) detail now) = Float (nav_dwjz n).
Proof.
  unfold merge.
  destruct (recommend_other (fill_nav (Some n) (fill_estimate estimate (fill_detail detail
             (initial_result code estimate (Some n) detail now)))))
    as (-> & _).
  destruct estimate, detail; reflexivity.
Qed.

Lemma merge_keeps_type code estimate nav d now :
  res_type (merge code estimate nav (Some d) now) = det_type d.
Proof.
  unfold merge.
  destruct (recommend_other (fill_nav nav (fill_estimate estimate (fill_detail (Some d)
             (initial_result code estimate nav (Some d) now)))))
    as (_ & _ & _ & _ & _ & _ & _ & ->).
  destruct estimate, nav; reflexivity.
Qed.

(** C9. One outcome per adapter. In [FundAPI.fetch_fund_data] the four
    tasks are all run, in the order they are submitted, each on the state the
    one before left, and whatever order the futures finish in, [results] has
    exactly the four source names as keys; the value at a source is what its
    own task returned, and [None] when that task raised, whatever the other
    tasks did: no exception leaves the loop. For the adapters of [FundAPI],
    which catch what their body raises, the value is the dict of the body
    that returned and [None] for a body that raised or fell through, and the
    four requests are all sent. In [get_fund_data] the three adapters are all
    asked, each one turns an exception of its body into [None], the merged
    record marks a source available exactly when its adapter returned a dict,
    and the dict of an adapter that returned is merged whatever the other
    two did. *)
Theorem one_outcome_per_adapter {Dict : Type}
    (task : Source -> string -> M (Outcome (option Dict)))
    (as_completed : list (Source * Outcome (option Dict)) ->
                    list (Source * Outcome (option Dict)))
    (body : Source -> Body Dict)
    (env : Env) (code : string) (w : World) :
  (forall futures, as_completed futures ≡ₚ futures) ->
  (let r1 := task Tiantian code w in
   let r2 := task EastmoneyNav code r1.2 in
   let r3 := task EastmoneyDetail code r2.2 in
   let r4 := task Ant code r3.2 in
   let out := fetch_fund_data task as_completed code w in
   out.2 = r4.2
   /\ dom out.1 = list_to_set (source_name <$> all_sources)
   /\ out.1 !! "tiantian" = Some (match r1.1 with Ok v => v | Raise _ => None end)
   /\ out.1 !! "eastmoney_nav" = Some (match r2.1 with Ok v => v | Raise _ => None end)
   /\ out.1 !! "eastmoney_detail"
      = Some (match r3.1 with Ok v => v | Raise _ => None end)
   /\ out.1 !! "ant" = Some (match r4.1 with Ok v => v | Raise _ => None end))
  /\ (let out := fetch_fund_data (api_adapter body) as_completed code w in
      (forall s, out.1 !! source_name s
                 = Some (match body s with Returns r => Some r | _ => None end))
      /\ out.2 = {| cache := cache w;
                    requests := requests w ++ [(Tiantian, code); (EastmoneyNav, code);
                                               (EastmoneyDetail, code); (Ant, code)] |})
  /\ fetch_and_merge env code w =
       (fetched env code, {| cache := cache w; requests := requests w ++ sent code |})
  /\ src_estimate (res_sources (fetched env code))
     = match body_estimate env with Returns _ => true | _ => false end
  /\ src_nav (res_sources (fetched env code))
     = match body_nav env with Returns _ => true | _ => false end
  /\ src_detail (res_sources (fetched env code))
     = match body_detail env with Returns _ => true | _ => false end
  /\ (forall e, body_estimate env = Returns e ->
        res_estimate (fetched env code) = Float (est_gsz e))
  /\ (forall n, body_nav env = Returns n ->
        res_nav (fetched env code) = Float (nav_dwjz n))
  /\ (forall d, body_detail env = Returns d ->
        res_type (fetched env code) = det_type d).
Proof.
  intros Hperm.
  assert (Hgen : forall task' : Source -> string -> M (Outcome (option Dict)),
    let r1 := task' Tiantian code w in
    let r2 := task' EastmoneyNav code r1.2 in
    let r3 := task' EastmoneyDetail code r2.2 in
    let r4 := task' Ant code r3.2 in
    let out := fetch_fund_data task' as_completed code w in
    out.2 = r4.2
    /\ dom out.1 = list_to_set (source_name <$> all_sources)
    /\ out.1 !! "tiantian" = Some (match r1.1 with Ok v => v | Raise _ => None end)
    /\ out.1 !! "eastmoney_nav" = Some (match r2.1 with Ok v => v | Raise _ => None end)
    /\ out.1 !! "eastmoney_detail"
       = Some (match r3.1 with Ok v => v | Raise _ => None end)
    /\ out.1 !! "ant" = Some (match r4.1 with Ok v => v | Raise _ => None end)).
  { intros task' r1 r2 r3 r4 out. unfold out, r4, r3, r2, r1.
    unfold fetch_fund_data, all_sources. cbn [submit_tasks].
    cbv [mbind M_bind mret M_ret].
    destruct (task' Tiantian code w) as [o1 w1]. cbn [fst snd].
    destruct (task' EastmoneyNav code w1) as [o2 w2]. cbn [fst snd].
    destruct (task' EastmoneyDetail code w2) as [o3 w3]. cbn [fst snd].
    destruct (task' Ant code w3) as [o4 w4]. cbn [fst snd].
    set (futures := [(Tiantian, o1); (EastmoneyNav, o2); (EastmoneyDetail, o3); (Ant, o4)]).
    assert (Hnd : NoDup (as_completed futures).*1).
    { rewrite (Hperm futures). by apply (bool_decide_unpack _). }
    assert (Hlook : forall s o, (s, o) ∈ futures ->
              gather (as_completed futures) !! source_name s = Some (recorded o)).
    { intros s o Hin. unfold gather. apply gather_acc_lookup; [done|].
      by rewrite (Hperm futures). }
    split; [done|]. split.
    { unfold gather. rewrite gather_acc_dom, dom_empty_L, (left_id_L ∅ (∪)).
      apply list_to_set_perm_L. by rewrite (Hperm futures). }
    split; [|split; [|split]].
    - apply (Hlook Tiantian o1). apply list_elem_of_In. simpl. tauto.
    - apply (Hlook EastmoneyNav o2). apply list_elem_of_In. simpl. tauto.
    - apply (Hlook EastmoneyDetail o3). apply list_elem_of_In. simpl. tauto.
    - apply (Hlook Ant o4). apply list_elem_of_In. simpl. tauto. }
  split; [apply Hgen|]. split.
  { pose proof (Hgen (api_adapter body)) as H. cbv zeta in H |- *.
    destruct H as (Hw & _ & H1 & H2 & H3 & H4).
    set (out := fetch_fund_data (api_adapter body) as_completed code w) in *.
    unfold api_adapter in Hw, H1, H2, H3, H4.
    cbv [mbind M_bind mret M_ret send_request] in Hw, H1, H2, H3, H4.
    cbn [fst snd] in Hw, H1, H2, H3, H4.
    split.
    - intros []; cbn [source_name].
      + rewrite H1. by destruct (body Tiantian).
      + rewrite H2. by destruct (body EastmoneyNav).
      + rewrite H3. by destruct (body EastmoneyDetail).
      + rewrite H4. by destruct (body Ant).
    - rewrite Hw. cbn [cache requests]. by rewrite <- !(assoc_L (++)). }
  split; [apply fetch_and_merge_eq|].
  unfold fetched. rewrite merge_sources. cbn [src_estimate src_nav src_detail].
  split; [by destruct (body_estimate env)|].
  split; [by destruct (body_nav env)|].
  split; [by destruct (body_detail env)|].
  split; [|split].
  - intros e ->. apply merge_keeps_estimate.
  - intros n ->. apply merge_keeps_nav.
  - intros d ->. apply merge_keeps_type.
Qed.

(** The future of one source raises, the body of another raises inside its
    adapter, the two others return their dict. *)
Lemma one_outcome_per_adapter_witness :
  dom (fetch_fund_data api_task reverse "000216" world0).1 =
    list_to_set (source_name <$> all_sources)
  /\ (fetch_fund_data api_task reverse "000216" world0).1 !! "tiantian" =
       Some (Some "tiantian dict")
  /\ (fetch_fund_data api_task reverse "000216" world0).1 !! "eastmoney_nav" =
       Some None
  /\ (fetch_fund_data api_task reverse "000216" world0).1 !! "eastmoney_detail" =
       Some None
  /\ (fetch_fund_data api_task reverse "000216" world0).1 !! "ant" =
       Some (Some "ant dict").
Proof.
  destruct (one_outcome_per_adapter api_task reverse api_bodies env_down "000216" world0
              (fun futures => reverse_Permutation futures))
    as [(_ & Hdom & H1 & H2 & H3 & H4) _].
  exact (conj Hdom (conj H1 (conj H2 (conj H3 H4)))).
Defined.

Example fetch_fund_data_example :
  fetch_fund_data api_task reverse "000216" world0 =
    ({[ "tiantian" := Some "tiantian dict"; "eastmoney_nav" := None;
        "eastmoney_detail" := None; "ant" := Some "ant dict" ]},
     {| cache := ∅;
        requests := [(Tiantian, "000216"); (EastmoneyNav, "000216"); (Ant, "000216")] |}).
Proof. vm_compute. reflexivity. Qed.

(** * Further properties *)

(** ** The cache across calls *)

Lemma get_fund_data_cases env code w :
  (exists item, cache w !! cache_key code = Some item
     /\ (time_get_cached env - timestamp item <? CACHE_TTL)%float = true
     /\ get_fund_data env code w = (data item, w))
  \/ (get_cached (cache_key code) (time_get_cached env) (cache w) = None
      /\ get_fund_data env code w =
         (fetched env code,
          {| cache := set_cache (cache_key code) (fetched env code)
                                (time_set_cache env) (cache w);
             requests := requests w ++ sent code |})).
Proof.
  destruct (get_cached (cache_key code) (time_get_cached env) (cache w)) as [r|] eqn:E.
  - left. pose proof (get_fund_data_hit _ _ _ _ E) as Hhit.
    unfold get_cached in E. destruct (cache w !! cache_key code) as [item|]; [|done].
    destruct (_ <? _)%float eqn:Hf; [|done]. injection E as <-. by exists item.
  - right. split; [done|]. by apply get_fund_data_miss.
Qed.

(** X1. Calls for other codes. A call of [get_fund_data] for [code] leaves
    the cache entry of every other code as it was, so a lookup of another
    code answers after the call what it answered before, at any time. *)
Theorem other_codes_untouched env code code' w :
  code <> code' ->
  cache (get_fund_data env code w).2 !! cache_key code' = cache w !! cache_key code'
  /\ (forall now, get_cached (cache_key code') now (cache (get_fund_data env code w).2)
                  = get_cached (cache_key code') now (cache w)).
Proof.
  intros Hne.
  assert (H : cache (get_fund_data env code w).2 !! cache_key code'
              = cache w !! cache_key code').
  { destruct (get_fund_data_cases env code w) as [(item & _ & _ & ->) | [_ ->]]; [done|].
    simpl. unfold set_cache. apply lookup_insert_ne.
    intros Heq. by apply Hne, cache_key_inj. }
  split; [exact H|]. intros now. by apply get_cached_ext.
Qed.

Lemma other_codes_untouched_witness :
  cache (get_fund_data env_b "320007" (get_fund_data env_a "000216" world0).2).2
    !! cache_key "000216"
  = Some {| data := fetched env_a "000216"; timestamp := 1700000001%float |}.
Proof.
  rewrite (proj1 (other_codes_untouched env_b "320007" "000216"
                    (get_fund_data env_a "000216" world0).2 ltac:(discriminate))).
  reflexivity.
Defined.

(** X2. The cache only grows. After a call of [get_fund_data] every key
    the cache had is still there: nothing is evicted, an expired entry is
    overwritten and never removed. The [cache_size] that [health] reports
    grows by one at most, and not at all when the code already had an entry,
    fresh or expired. *)
Theorem cache_never_shrinks env code w now :
  let w' := (get_fund_data env code w).2 in
  (forall key, is_Some (cache w !! key) -> is_Some (cache w' !! key))
  /\ (health_cache_size (health now w).1 <= health_cache_size (health now w').1
      <= S (health_cache_size (health now w).1))%nat
  /\ (is_Some (cache w !! cache_key code) ->
      health_cache_size (health now w').1 = health_cache_size (health now w).1).
Proof.
  intros w'. unfold w'. simpl.
  destruct (get_fund_data_cases env code w) as [(item & _ & _ & ->) | [_ ->]]; simpl.
  - repeat split; try done; lia.
  - unfold set_cache. split; [|split].
    + intros key Hkey. rewrite lookup_insert. case_decide; [by eexists | done].
    + destruct (cache w !! cache_key code) as [item|] eqn:E.
      * rewrite map_size_insert_Some by eauto. lia.
      * rewrite map_size_insert_None by done. lia.
    + intros Hsome. by rewrite map_size_insert_Some.
Qed.

Lemma foldl_other_codes code (others : list (Env * string)) w :
  Forall (fun c => c.2 <> code) others ->
  cache (foldl (fun w c => (get_fund_data c.1 c.2 w).2) w others) !! cache_key code
  = cache w !! cache_key code.
Proof.
  revert w. induction others as [|c others IH]; intros w Hne; [done|].
  apply Forall_cons in Hne as [Hc Hne]. simpl. rewrite (IH _ Hne).
  destruct (get_fund_data_cases c.1 c.2 w) as [(item & _ & _ & ->) | [_ ->]]; [done|].
  simpl. unfold set_cache. by apply lookup_insert_ne; intros ?%cache_key_inj.
Qed.

(** X3. A stored record is served until it expires. After a call that
    missed the cache, and whatever calls for other codes come between, a call
    for the same code whose clock reads less than [CACHE_TTL] after the
    store returns the stored record, sends no request and leaves the state
    as it is, whatever the sources would answer then. *)
Theorem served_from_cache_within_ttl env code w (others : list (Env * string)) env2 :
  get_cached (cache_key code) (time_get_cached env) (cache w) = None ->
  Forall (fun c => c.2 <> code) others ->
  (time_get_cached env2 - time_set_cache env <? CACHE_TTL)%float = true ->
  let w2 := foldl (fun w c => (get_fund_data c.1 c.2 w).2)
                  (get_fund_data env code w).2 others in
  (get_fund_data env code w).1 = fetched env code
  /\ get_fund_data env2 code w2 = (fetched env code, w2).
Proof.
  intros Hmiss Hothers Hfresh w2.
  split; [by rewrite (get_fund_data_miss _ _ _ Hmiss)|].
  apply get_fund_data_hit. unfold get_cached, w2.
  rewrite (foldl_other_codes code others _ Hothers).
  rewrite (get_fund_data_miss _ _ _ Hmiss). simpl.
  unfold set_cache. rewrite lookup_insert_eq. simpl. by rewrite Hfresh.
Qed.

Lemma served_from_cache_within_ttl_witness :
  get_fund_data env_soon "000216"
    (get_fund_data env_b "320007" (get_fund_data env_a "000216" world0).2).2
  = (fetched env_a "000216",
     (get_fund_data env_b "320007" (get_fund_data env_a "000216" world0).2).2).
Proof.
  apply (served_from_cache_within_ttl env_a "000216" world0 [(env_b, "320007")] env_soon).
  - reflexivity.
  - repeat constructor. discriminate.
  - reflexivity.
Defined.

(** X4. A total outage is cached like any record. When the three adapters
    all return [None] on a miss, the record without data is stored; a call
    for the same code less than [CACHE_TTL] later returns it from the cache
    and asks no source, even when the sources would answer by then. *)
Theorem outage_record_served_until_expiry env code w env2 :
  try_or_None (body_estimate env) = None ->
  try_or_None (body_nav env) = None ->
  try_or_None (body_detail env) = None ->
  get_cached (cache_key code) (time_get_cached env) (cache w) = None ->
  (time_get_cached env2 - time_set_cache env <? CACHE_TTL)%float = true ->
  get_fund_data env2 code (get_fund_data env code w).2 =
    (no_data code (datetime_now env), (get_fund_data env code w).2).
Proof.
  intros He Hn Hd Hmiss Hfresh.
  assert (Hf : fetched env code = no_data code (datetime_now env)).
  { unfold fetched. by rewrite He, Hn, Hd. }
  rewrite <- Hf. apply get_fund_data_hit.
  rewrite (get_fund_data_miss _ _ _ Hmiss). simpl.
  unfold get_cached, set_cache. rewrite lookup_insert_eq. simpl. by rewrite Hfresh.
Qed.

Lemma outage_record_served_until_expiry_witness :
  get_fund_data env_a "000216" (get_fund_data env_down "000216" world0).2 =
    (no_data "000216" "2024-01-02 10:00:00", (get_fund_data env_down "000216" world0).2).
Proof.
  apply (outage_record_served_until_expiry env_down "000216" world0 env_a); reflexivity.
Defined.

(** ** The other fields of the merged record *)

(** X5. The identity fields of the merged record. ['code'] is the
    requested code, not the one a source reports. ['type'] comes from the
    detail source alone. ['name'] is the name of the detail source unless
    that name is empty or null and the estimate source answered, in which
    case it is the name of the estimate source; with no such source it is
    the empty string. *)
Theorem identity_fields code estimate nav detail now :
  let r := merge code estimate nav detail now in
  res_code r = code
  /\ res_type r = match detail with Some d => det_type d | None => PStr "" end
  /\ res_name r =
       match detail, estimate with
       | Some d, Some e => if truthy (det_name d) then det_name d else est_name e
       | Some d, None => det_name d
       | None, Some e => est_name e
       | None, None => PStr ""
       end.
Proof.
  intros r. unfold r. split; [apply merge_code|]. unfold merge.
  destruct (recommend_other (fill_nav nav (fill_estimate estimate (fill_detail detail
             (initial_result code estimate nav detail now)))))
    as (_ & _ & _ & _ & _ & _ & -> & ->).
  split; destruct nav, estimate, detail; reflexivity.
Qed.

(** X6. The published fields of the merged record. ['nav'], ['navDate'] and
    ['navChange'] are the three fields of the nav source, and the defaults
    [0], [''], [0] when it did not answer; neither the estimate source nor
    the detail source writes them (the ['dwjz'] of either is not used).
    Without the nav source the recommended value is the estimate when it is
    above zero, and the sentinel otherwise. *)
Theorem published_fields_from_nav_only code estimate nav detail now :
  let r := merge code estimate nav detail now in
  (res_nav r, res_navDate r, res_navChange r) =
    match nav with
    | Some n => (Float (nav_dwjz n), nav_fsrq n, Float (nav_jzzzl n))
    | None => (Int 0, PStr "", Int 0)
    end
  /\ (nav = None ->
      (res_currentValue r, res_dayChange r) =
        if gt0 (res_estimate r) then (res_estimate r, res_estimateChange r)
        else (Int 0, Int 0)).
Proof.
  intros r. split.
  - unfold r, merge, recommend.
    destruct nav, estimate, detail; simpl;
      repeat match goal with |- context [if ?b then _ else _] => destruct b end;
      reflexivity.
  - intros ->. pose proof (merge_current code estimate None detail now) as H.
    cbv zeta in H. fold r in H. rewrite H.
    pose proof (merge_nav code estimate None detail now) as Hn.
    cbv zeta in Hn. fold r in Hn. simpl in Hn. injection Hn as -> _. reflexivity.
Qed.

(** X7. The recommended value is above zero or the sentinel. Whatever the
    sources returned, ['currentValue'] compares greater than zero, or it is
    the integer [0] the record starts with and ['dayChange'] is that [0]
    too: a negative value, a zero or a NaN of a source is never
    recommended. *)
Theorem current_value_positive_or_sentinel code estimate nav detail now :
  let r := merge code estimate nav detail now in
  gt0 (res_currentValue r) = true
  \/ (res_currentValue r = Int 0 /\ res_dayChange r = Int 0).
Proof.
  intros r. pose proof (merge_current code estimate nav detail now) as H.
  cbv zeta in H. fold r in H.
  destruct (gt0 (res_nav r)) eqn:Hn.
  - injection H as -> _. by left.
  - destruct (gt0 (res_estimate r)) eqn:He.
    + injection H as -> _. by left.
    + injection H as -> ->. by right.
Qed.

(** ** Calls in turn and calls interleaved *)

Lemma three_steps_are_a_call l1 env code l2 w :
  run [length l1; length l1; length l1] (l1 ++ new_call env code :: l2) w =
  (l1 ++ with_pc (new_call env code) (Returned (get_fund_data env code w).1) :: l2,
   (get_fund_data env code w).2).
Proof.
  cbn [run]. cbv [mbind M_bind mret M_ret].
  rewrite step_at_middle. cbn [call_env call_code call_pc new_call].
  pose proof (step_call_cases env code AtLookup w) as H1. cbv beta iota in H1.
  rewrite H1.
  destruct (get_cached (cache_key code) (time_get_cached env) (cache w)) as [r|] eqn:E.
  - rewrite (get_fund_data_hit _ _ _ _ E). cbn [fst snd].
    rewrite step_at_middle. cbn [call_env call_code call_pc with_pc new_call step_call].
    cbv [mret M_ret]. rewrite step_at_middle.
    cbn [call_env call_code call_pc with_pc new_call step_call]. reflexivity.
  - rewrite (get_fund_data_miss _ _ _ E). cbn [fst snd].
    rewrite step_at_middle. cbn [call_env call_code call_pc with_pc new_call].
    pose proof (step_call_cases env code AtFetch w) as H2. cbv beta iota in H2.
    rewrite H2. rewrite step_at_middle.
    cbn [call_env call_code call_pc with_pc new_call].
    pose proof (step_call_cases env code (AtStore (fetched env code))
                  {| cache := cache w; requests := requests w ++ sent code |}) as H3.
    cbv beta iota in H3. rewrite H3. reflexivity.
Qed.

Lemma run_in_turn code before envs w :
  run (in_turn (length before) (length envs))
      (before ++ ((fun env => new_call env code) <$> envs)) w =
  (before ++ ((fun r => {| call_env := r.1; call_code := code; call_pc := Returned r.2 |})
              <$> zip envs (serve code envs w).1),
   (serve code envs w).2).
Proof.
  revert before w. induction envs as [|env envs IH]; intros before w; [done|].
  unfold in_turn. cbn [length seq]. rewrite fmap_cons. cbn [concat].
  change ([length before; length before; length before] ++
          concat ((fun i => [i; i; i]) <$> seq (S (length before)) (length envs)))
    with ([length before; length before; length before] ++ in_turn (S (length before)) (length envs)).
  rewrite run_app, fmap_cons, three_steps_are_a_call. cbn [fst snd].
  specialize (IH (before ++ [with_pc (new_call env code)
                             (Returned (get_fund_data env code w).1)])
                 (get_fund_data env code w).2).
  rewrite length_app, Nat.add_1_r, <- !(assoc_L (++)) in IH. cbn [app] in IH.
  rewrite IH. cbn [serve]. cbv [mbind M_bind mret M_ret].
  destruct (get_fund_data env code w) as [r w1]. cbn [fst snd].
  destruct (serve code envs w1) as [rs w2]. cbn [fst snd zip zip_with].
  rewrite fmap_cons. reflexivity.
Qed.

Lemma serve_hits code envs w r :
  Forall (fun env =>
            get_cached (cache_key code) (time_get_cached env) (cache w) = Some r) envs ->
  serve code envs w = (replicate (length envs) r, w).
Proof.
  induction 1 as [|env envs Hhit _ IH]; [done|].
  cbn [serve]. cbv [mbind M_bind mret M_ret].
  by rewrite (get_fund_data_hit _ _ _ _ Hhit), IH.
Qed.

(** X8. Calls one after the other share one fetch. When the calls for one
    code run in turn (each one finishes before the next one starts), the
    first one misses the cache and every later one looks up less than
    [CACHE_TTL] after the first one stored, the pipeline runs once, every
    call returns the record of the first one, and the state is the one the
    first call left. *)
Theorem calls_in_turn_share_one_fetch code env (later : list Env) w0 :
  get_cached (cache_key code) (time_get_cached env) (cache w0) = None ->
  Forall (fun env' =>
            (time_get_cached env' - time_set_cache env <? CACHE_TTL)%float = true) later ->
  let out := run (in_turn 0 (S (length later)))
                 ((fun env => new_call env code) <$> env :: later) w0 in
  pipeline_runs code out.2 = S (pipeline_runs code w0)
  /\ result_of <$> out.1 = replicate (S (length later)) (Some (fetched env code))
  /\ out.2 = (get_fund_data env code w0).2.
Proof.
  intros Hmiss Hfresh out.
  pose proof (run_in_turn code [] (env :: later) w0) as Hrun.
  cbn [length app] in Hrun. fold out in Hrun.
  assert (Hserve : serve code (env :: later) w0 =
            (replicate (S (length later)) (fetched env code),
             (get_fund_data env code w0).2)).
  { cbn [serve]. cbv [mbind M_bind mret M_ret].
    rewrite (get_fund_data_miss _ _ _ Hmiss). cbn [fst snd].
    rewrite (serve_hits code later _ (fetched env code)); [done|].
    eapply Forall_impl; [exact Hfresh|]. intros env' Hf. simpl.
    unfold get_cached, set_cache. rewrite lookup_insert_eq. simpl. by rewrite Hf. }
  rewrite Hserve in Hrun. cbn [fst snd] in Hrun. rewrite Hrun. cbn [fst snd].
  split; [|split; [|done]].
  - rewrite (get_fund_data_miss _ _ _ Hmiss). cbn [snd]. apply pipeline_runs_fetch.
  - rewrite <- list_fmap_compose.
    generalize (fetched env code). intros r.
    change (S (length later)) with (length (env :: later)).
    generalize (env :: later). intros l.
    induction l as [|e l IH]; [done|]. cbn [length replicate zip zip_with].
    rewrite !fmap_cons. f_equal. exact IH.
Qed.

Lemma calls_in_turn_share_one_fetch_witness :
  pipeline_runs "000216"
    (run (in_turn 0 3) ((fun env => new_call env "000216") <$> [env_a; env_b; env_soon])
         world0).2 = 1%nat
  /\ result_of <$>
       (run (in_turn 0 3) ((fun env => new_call env "000216") <$> [env_a; env_b; env_soon])
            world0).1
     = replicate 3 (Some (fetched env_a "000216")).
Proof.
  destruct (calls_in_turn_share_one_fetch "000216" env_a [env_b; env_soon] world0)
    as (Hruns & Hres & _).
  - reflexivity.
  - repeat constructor.
  - split; [exact Hruns | exact Hres].
Defined.

Lemma count_unreturned_middle l1 c l2 :
  count_unreturned (l1 ++ c :: l2) =
  (count_unreturned l1 + (if unreturned c then 1 else 0) + count_unreturned l2)%nat.
Proof.
  unfold count_unreturned. rewrite List.filter_app, length_app. simpl.
  destruct (unreturned c); simpl; lia.
Qed.

Lemma bounded_init (calls : list (Env * string)) w :
  well_keyed (cache w) ->
  bounded calls.*2 w ((fun c => new_call c.1 c.2) <$> calls) w.
Proof.
  intros Hwk. split; [| done | | done |].
  - exists []. rewrite (right_id_L [] (++)). split; [done|]. split; [|done].
    rewrite length_fmap. cbn [length].
    assert (count_waiting ((fun c => new_call c.1 c.2) <$> calls) <= length calls)%nat;
      [|lia].
    unfold count_waiting. etrans; [apply List.filter_length_le|].
    by rewrite length_fmap.
  - rewrite length_fmap.
    assert (count_unreturned ((fun c => new_call c.1 c.2) <$> calls) <= length calls)%nat;
      [|lia].
    unfold count_unreturned. etrans; [apply List.filter_length_le|].
    by rewrite length_fmap.
  - apply Forall_fmap, Forall_forall. intros c Hc. split; [|done]. simpl.
    by apply list_elem_of_fmap_2.
Qed.

Lemma bounded_step_middle codes w0 l1 c l2 w :
  bounded codes w0 (l1 ++ c :: l2) w ->
  bounded codes w0
    (l1 ++ with_pc c (step_call (call_env c) (call_code c) (call_pc c) w).1 :: l2)
    (step_call (call_env c) (call_code c) (call_pc c) w).2.
Proof.
  intros [(added & Hreq & Hlen & Hin) Hkeys Hsize Hwk Hcodes].
  apply Forall_app in Hcodes as [Hc1 Hc2].
  apply Forall_cons in Hc2 as [[Hcode Hown] Hc2].
  rewrite count_waiting_middle, length_app in Hlen. cbn [length] in Hlen.
  rewrite count_unreturned_middle, length_app in Hsize. cbn [length] in Hsize.
  pose proof (step_call_cases (call_env c) (call_code c) (call_pc c) w) as Hstep.
  unfold waiting, unreturned, holds_own_code in *.
  destruct (call_pc c) as [| |r|r] eqn:Hpc; rewrite Hstep; cbn [fst snd].
  - (* the lookup *)
    split; cbn [cache requests]; try done.
    + exists added. split; [done|]. split; [|done].
      rewrite count_waiting_middle, length_app. cbn [length]. unfold waiting.
      cbn [call_pc with_pc]. destruct (get_cached _ _ _); lia.
    + rewrite count_unreturned_middle, length_app. cbn [length]. unfold unreturned.
      cbn [call_pc with_pc]. destruct (get_cached _ _ _); lia.
    + apply Forall_app; split; [done|]. constructor; [|done].
      split; [done|]. unfold holds_own_code. cbn [call_pc call_code with_pc].
      unfold get_cached.
      destruct (cache w !! cache_key (call_code c)) as [item|] eqn:E; [|done].
      destruct (_ <? _)%float; [|done]. symmetry. by apply cache_key_inj, Hwk.
  - (* the fetch *)
    split; cbn [cache requests]; try done.
    + exists (added ++ sent (call_code c)). rewrite Hreq, (assoc_L (++)).
      split; [done|]. split.
      * rewrite count_waiting_middle, !length_app. cbn [length]. unfold waiting.
        cbn [call_pc with_pc]. unfold sent. cbn [length]. lia.
      * apply Forall_app; split; [done|]. unfold sent. by repeat constructor.
    + rewrite count_unreturned_middle, length_app. cbn [length]. unfold unreturned.
      cbn [call_pc with_pc]. lia.
    + apply Forall_app; split; [done|]. constructor; [|done].
      split; [done|]. unfold holds_own_code. cbn [call_pc call_code with_pc].
      unfold fetched. apply merge_code.
  - (* the store *)
    split; cbn [cache requests].
    + exists added. split; [done|]. split; [|done].
      rewrite count_waiting_middle, length_app. cbn [length]. unfold waiting.
      cbn [call_pc with_pc]. lia.
    + intros key Hkey. unfold set_cache. rewrite lookup_insert.
      case_decide; [by eexists | by apply Hkeys].
    + rewrite count_unreturned_middle, length_app. cbn [length]. unfold unreturned.
      cbn [call_pc with_pc]. unfold set_cache.
      destruct (cache w !! cache_key (call_code c)) as [item|] eqn:E.
      * rewrite map_size_insert_Some by eauto. lia.
      * rewrite map_size_insert_None by done. lia.
    + intros key item. unfold set_cache. rewrite lookup_insert.
      case_decide as Hk; [|by apply Hwk]. intros [= <-]. cbn [data]. by rewrite Hown.
    + apply Forall_app; split; [done|]. by constructor.
  - (* returned *)
    split; cbn [cache requests]; try done.
    + exists added. split; [done|]. split; [|done].
      rewrite count_waiting_middle, length_app. cbn [length]. unfold waiting.
      cbn [call_pc with_pc]. lia.
    + rewrite count_unreturned_middle, length_app. cbn [length]. unfold unreturned.
      cbn [call_pc with_pc]. lia.
    + apply Forall_app; split; [done|]. by constructor.
Qed.

Lemma bounded_run codes w0 schedule calls w :
  bounded codes w0 calls w ->
  bounded codes w0 (run schedule calls w).1 (run schedule calls w).2.
Proof.
  revert calls w. induction schedule as [|i rest IH]; intros calls w Hb; [done|].
  simpl. cbv [mbind M_bind].
  assert (Hnext : bounded codes w0 (step_at i calls w).1 (step_at i calls w).2).
  { destruct (calls !! i) as [c|] eqn:E.
    - destruct (list_elem_of_split_length calls i c E) as (l1 & l2 & -> & ->).
      rewrite step_at_middle.
      pose proof (bounded_step_middle codes w0 l1 c l2 w Hb) as Hnext.
      by destruct (step_call (call_env c) (call_code c) (call_pc c) w).
    - by rewrite step_at_outside. }
  destruct (step_at i calls w) as [calls' w']. by apply IH.
Qed.

Lemma step_at_shape i calls w :
  Forall2 (fun c c' => call_env c' = call_env c /\ call_code c' = call_code c)
          calls (step_at i calls w).1.
Proof.
  destruct (calls !! i) as [c|] eqn:E.
  - destruct (list_elem_of_split_length calls i c E) as (l1 & l2 & -> & ->).
    rewrite step_at_middle.
    destruct (step_call (call_env c) (call_code c) (call_pc c) w) as [p w'].
    cbn [fst]. apply Forall2_app; [by apply Forall_Forall2_diag, Forall_forall|].
    constructor; [done|]. by apply Forall_Forall2_diag, Forall_forall.
  - rewrite step_at_outside by done. by apply Forall_Forall2_diag, Forall_forall.
Qed.

Lemma run_shape schedule calls w :
  Forall2 (fun c c' => call_env c' = call_env c /\ call_code c' = call_code c)
          calls (run schedule calls w).1.
Proof.
  revert calls w. induction schedule as [|i rest IH]; intros calls w.
  - by apply Forall_Forall2_diag, Forall_forall.
  - simpl. cbv [mbind M_bind]. pose proof (step_at_shape i calls w) as H1.
    destruct (step_at i calls w) as [calls' w']. cbn [fst] in H1.
    specialize (IH calls' w').
    eapply Forall2_trans; [|exact H1|exact IH].
    intros c1 c2 c3 [? ?] [? ?]. split; congruence.
Qed.

(** X9. What every interleaving keeps. Take any calls of [get_fund_data],
    for any codes, started on a cache whose keys match its records, and any
    schedule of their steps, finished or not. The requests sent are at most
    three per call and all for codes of the calls; the cache keeps every key
    it had and gains at most one entry per call; its keys still match its
    records; and a call that has returned holds a record of its own code. *)
Theorem any_interleaving_bounded (schedule : list nat) (calls : list (Env * string))
    (w : World) :
  well_keyed (cache w) ->
  let out := run schedule ((fun c => new_call c.1 c.2) <$> calls) w in
  (exists added,
      requests out.2 = requests w ++ added
      /\ (length added <= 3 * length calls)%nat
      /\ Forall (fun q => q.2 ∈ calls.*2) added)
  /\ (forall key, is_Some (cache w !! key) -> is_Some (cache out.2 !! key))
  /\ (size (cache out.2) <= size (cache w) + length calls)%nat
  /\ well_keyed (cache out.2)
  /\ Forall2 (fun c c' => call_env c' = c.1 /\ call_code c' = c.2
                /\ forall r, result_of c' = Some r -> res_code r = c.2)
             calls out.1.
Proof.
  intros Hwk out.
  pose proof (bounded_run _ _ schedule _ _ (bounded_init calls w Hwk)) as Hb.
  fold out in Hb. destruct Hb as [(added & Hreq & Hlen & Hin) Hkeys Hsize Hwk' Hcodes].
  pose proof (run_shape schedule ((fun c => new_call c.1 c.2) <$> calls) w) as Hshape.
  fold out in Hshape. apply Forall2_fmap_l in Hshape.
  pose proof (Forall2_length _ _ _ Hshape) as Hsame. rewrite <- Hsame in Hlen, Hsize.
  split; [|split; [|split; [|split]]]; try done.
  - exists added. split; [done|]. split; [lia | done].
  - lia.
  - apply Forall2_same_length_lookup. split; [done|].
    intros i c c' Hc Hc'.
    destruct (Forall2_lookup_lr _ _ _ _ _ _ Hshape Hc Hc') as [He Hcd].
    cbn [call_env call_code new_call] in He, Hcd.
    split; [done|]. split; [done|]. intros r Hr.
    destruct (proj1 (Forall_lookup _ _) Hcodes _ _ Hc') as [_ Hown].
    unfold holds_own_code in Hown. unfold result_of in Hr.
    destruct (call_pc c'); try done. injection Hr as <-. congruence.
Qed.

Lemma any_interleaving_bounded_witness :
  (length (requests (run [0; 1; 0; 1; 1; 0]%nat
                        [new_call env_a "000216"; new_call env_b "320007"] world0).2)
   <= 6)%nat.
Proof.
  destruct (any_interleaving_bounded [0; 1; 0; 1; 1; 0]%nat
              [(env_a, "000216"); (env_b, "320007")] world0)
    as ((added & Hreq & Hlen & _) & _).
  - intros key item H. simpl in H. by rewrite lookup_empty in H.
  - cbn [fmap list_fmap fst snd] in Hreq. rewrite Hreq. cbn [requests world0 app length] in *.
    exact Hlen.
Defined.

(** ** The batch endpoint under any interleaving of its workers *)




Lemma pool_records_step i workers w :
  well_keyed (cache w) /\ Forall worker_holds_own_code workers ->
  well_keyed (cache (pool_step i workers w).2)
  /\ Forall worker_holds_own_code (pool_step i workers w).1.
Proof.
  intros Hrec.
  destruct (workers !! i) as [k|] eqn:Hi; [|by rewrite (pool_step_None _ _ _ Hi)].
  destruct Hrec as [Hwk Hown].
  rewrite (pool_step_Some _ _ _ _ Hi). cbn [fst snd].
  pose proof (proj1 (Forall_lookup _ _) Hown i k Hi) as Hk.
  unfold worker_holds_own_code in Hk.
  rewrite step_worker_cases.
  destruct (worker_at k) as [[| |r|r]|e]; cbn [fst snd].
  - split; [done|]. apply Forall_insert; [done|].
    unfold worker_holds_own_code. cbn [worker_at worker_code with_at].
    unfold get_cached.
    destruct (cache w !! cache_key (worker_code k)) as [item|] eqn:E; [|done].
    destruct (_ <? _)%float; [|done]. symmetry. by apply cache_key_inj, Hwk.
  - destruct (worker_fault k) as [f|]; cbn [fst snd cache].
    + split; [done|]. by apply Forall_insert.
    + split; [done|]. apply Forall_insert; [done|].
      unfold worker_holds_own_code. cbn [worker_at worker_code with_at].
      unfold fetched. apply merge_code.
  - split.
    + cbn [cache]. intros key item. unfold set_cache. rewrite lookup_insert.
      case_decide as Hkey; [|by apply Hwk]. intros [= <-]. cbn [data]. by rewrite Hk.
    + by apply Forall_insert.
  - split; [done|]. by apply Forall_insert.
  - split; [done|]. by apply Forall_insert.
Qed.

Lemma size_list_to_set_le (l : list string) :
  (size (list_to_set l : gset string) <= length l)%nat.
Proof.
  induction l as [|x l IH].
  - rewrite list_to_set_nil, size_empty. simpl. lia.
  - rewrite list_to_set_cons, size_union_alt, size_singleton.
    assert (Hsub : (list_to_set l : gset string) ∖ {[x]} ⊆ list_to_set l).
    { intros y Hy. by apply elem_of_difference in Hy as [Hy _]. }
    apply subseteq_size in Hsub. simpl. lia.
Qed.

Lemma outcome_for_elem code (futures : list (string * Outcome FundResult)) o :
  outcome_for code futures = Some o -> (code, o) ∈ futures.
Proof.
  induction futures as [|f rest IH]; simpl; [done|].
  destruct (outcome_for code rest) as [o'|].
  - intros [= ->]. right. by apply IH.
  - case_decide as Hf; [|done]. intros [= <-]. destruct f as [c o']. simpl in Hf.
    subst c. by left.
Qed.

(** X10. The entries of an accepted batch. Whatever way the workers of a
    batch interleave, and whichever of them raise, on a cache whose keys
    match its records an accepted batch answers [success] with exactly the
    distinct codes of the list as keys, at most 50 of them; an entry that is
    a record is a record of its code; when no worker raises every entry is a
    record; and the keys of the cache still match its records afterwards. *)
Theorem batch_entries_are_records (envs : nat -> Env) (faults : nat -> option Fault)
    (schedule : list nat) (param : option string) (w : World) :
  well_keyed (cache w) ->
  parse_codes param <> [] ->
  (length (parse_codes param) <= 50)%nat ->
  exists results w',
    get_funds (server_pool envs faults schedule) param w = (Success results, w')
    /\ dom results = list_to_set (parse_codes param)
    /\ (size results <= 50)%nat
    /\ (forall code r, results !! code = Some (Data r) -> res_code r = code)
    /\ ((forall i, faults i = None) ->
        forall code, code ∈ parse_codes param ->
          exists r, results !! code = Some (Data r) /\ res_code r = code)
    /\ well_keyed (cache w').
Proof.
  intros Hwk Hne Hle. set (codes := parse_codes param) in *.
  pose proof (get_funds_accepted (server_pool envs faults schedule) param w Hne Hle)
    as Hget.
  fold codes in Hget. rewrite server_pool_eq in Hget.
  pose proof (server_pool_codes envs faults schedule codes w) as Hcodes.
  rewrite server_pool_eq in Hcodes. cbn [fst] in Hcodes.
  set (sched := schedule ++ lockstep (length codes)) in *.
  set (ws := (pool_run sched (submit_from envs faults 0 codes) w).1) in *.
  set (w' := (pool_run sched (submit_from envs faults 0 codes) w).2) in *.
  set (futures := (fun k => (worker_code k, future_result k)) <$> ws) in *.
  assert (Hrec : well_keyed (cache w') /\ Forall worker_holds_own_code ws).
  { apply (pool_run_keeps (fun ws w => well_keyed (cache w)
                                       /\ Forall worker_holds_own_code ws)).
    - intros i ws0 w0. apply pool_records_step.
    - split; [done|]. apply Forall_lookup. intros j k Hk.
      rewrite submit_from_lookup in Hk. destruct (codes !! j); [|done].
      by injection Hk as <-. }
  destruct Hrec as [Hwk' Hown].
  assert (Hdom : dom (collect futures) = list_to_set codes)
    by (by rewrite collect_dom, Hcodes).
  assert (Hentry : forall code o, outcome_for code futures = Some o ->
            exists k, k ∈ ws /\ worker_code k = code /\ o = future_result k).
  { intros code o Ho. apply outcome_for_elem in Ho.
    apply list_elem_of_fmap in Ho as (k & [= -> ->] & Hk). by exists k. }
  assert (Hdata : forall code r, collect futures !! code = Some (Data r) ->
            res_code r = code).
  { intros code r. rewrite collect_lookup.
    destruct (outcome_for code futures) as [o|] eqn:Ho; [|done].
    destruct (Hentry code o Ho) as (k & Hk & <- & ->). simpl.
    pose proof (proj1 (Forall_forall _ _) Hown k Hk) as Hkown.
    unfold worker_holds_own_code in Hkown. unfold future_result.
    destruct (worker_at k) as [[| |r'|r']|e]; simpl; try done.
    by intros [= <-]. }
  exists (collect futures), w'. split; [done|]. split; [done|].
  split; [|split; [done|split; [|done]]].
  - rewrite <- size_dom, Hdom. pose proof (size_list_to_set_le codes). lia.
  - intros Hhealthy code Hin.
    assert (Hsome : is_Some (collect futures !! code)).
    { apply elem_of_dom. rewrite Hdom. by apply elem_of_list_to_set. }
    destruct Hsome as [entry Hentry']. rewrite Hentry'.
    destruct entry as [r|e]; [exists r; split; [done|]; by apply Hdata|].
    exfalso. rewrite collect_lookup in Hentry'.
    destruct (outcome_for code futures) as [o|] eqn:Ho; [|done].
    destruct (Hentry code o Ho) as (k & Hk & _ & ->).
    apply list_elem_of_lookup in Hk as [j Hj].
    pose proof (pool_done schedule (submit_from envs faults 0 codes) w j k) as Hdone.
    rewrite submit_from_length in Hdone. specialize (Hdone Hj).
    destruct (shape_lookup envs faults codes ws j k
                (pool_run_submitted_shape _ _ _ _ _) Hj) as (_ & _ & Hf).
    pose proof (proj1 (Forall_lookup _ _)
                  (pool_run_raised sched _ w (submit_from_raised envs faults 0 codes))
                  j k Hj) as Hraised.
    unfold raised_own_fault in Hraised. unfold future_result in Hentry'.
    destruct Hdone as [[r Hr] | [e' He]].
    + by rewrite Hr in Hentry'.
    + rewrite He in Hraised. destruct Hraised as (f & Hff & _).
      rewrite Hf, Hhealthy in Hff. done.
Qed.

(** A code listed twice, three workers interleaved, none of them raises. *)
Lemma batch_entries_are_records_witness :
  exists results w',
    get_funds (server_pool (fun _ => env_a) no_fault [0; 2; 1; 2; 0; 1]%nat)
              (Some "000216, 320007,000216") world0 = (Success results, w')
    /\ dom results = list_to_set ["000216"; "320007"; "000216"]
    /\ (forall code r, results !! code = Some (Data r) -> res_code r = code)
    /\ well_keyed (cache w').
Proof.
  destruct (batch_entries_are_records (fun _ => env_a) no_fault [0; 2; 1; 2; 0; 1]%nat
              (Some "000216, 320007,000216") world0)
    as (results & w' & Hget & Hdom & _ & Hdata & _ & Hwk).
  - intros key item H. simpl in H. by rewrite lookup_empty in H.
  - vm_compute. discriminate.
  - vm_compute. lia.
  - exists results, w'. split; [exact Hget|]. split; [exact Hdom|by split].
Defined.


(** ** The codes of a batch *)










Lemma split_comma_single s : has_comma s = false -> split_comma s = [s].
Proof.
  induction s as [|c s IH]; [done|]. simpl.
  intros [Hc Hs]%orb_false_iff. by rewrite Hc, (IH Hs).
Qed.

Lemma split_comma_app s t :
  has_comma s = false -> split_comma (s ++ String "," t) = s :: split_comma t.
Proof.
  induction s as [|c s IH]; [done|]. simpl.
  intros [Hc Hs]%orb_false_iff. by rewrite Hc, (IH Hs).
Qed.

Lemma split_comma_concat (codes : list string) :
  codes <> [] -> Forall (fun c => has_comma c = false) codes ->
  split_comma (String.concat "," codes) = codes.
Proof.
  induction codes as [|c codes IH]; [done|]. intros _ Hall.
  apply Forall_cons in Hall as [Hc Hall].
  destruct codes as [|c' codes].
  - simpl. by apply split_comma_single.
  - cbn [String.concat]. change ("," ++ ?t)%string with (String "," t).
    rewrite (split_comma_app _ _ Hc). f_equal. by apply IH.
Qed.

(** X13. Joining and parsing. A list of codes that are not empty, have no
    white space at either end and no comma, joined with commas, is parsed
    back to itself: order and repeats are kept. *)
Theorem parse_codes_of_joined (codes : list string) :
  Forall (fun c => clean c = true) codes ->
  parse_codes (Some (String.concat "," codes)) = codes.
Proof.
  intros Hclean.
  assert (Hcomma : Forall (fun c => has_comma c = false) codes).
  { eapply Forall_impl; [exact Hclean|]. intros c Hc. unfold clean in Hc.
    apply andb_true_iff in Hc as [_ Hc]. by apply negb_true_iff. }
  assert (Hkeep : forall l : list string, Forall (fun c => clean c = true) l ->
            strip <$> List.filter (fun c => nonempty (strip c)) l = l).
  { induction 1 as [|c l Hc _ IH]; [done|]. unfold clean in Hc.
    apply andb_true_iff in Hc as [Hc _]. apply andb_true_iff in Hc as [Hne Hs].
    apply String.eqb_eq in Hs. cbn [List.filter]. rewrite Hs, Hne.
    rewrite fmap_cons, Hs. by f_equal. }
  unfold parse_codes.
  change (default "" (Some (String.concat "," codes))) with (String.concat "," codes).
  destruct codes as [|c codes]; [reflexivity|].
  rewrite split_comma_concat by done. by apply Hkeep.
Qed.

Lemma parse_codes_of_joined_witness :
  parse_codes (Some (String.concat "," ["000216"; "320007"; "000216"]))
  = ["000216"; "320007"; "000216"].
Proof.
  apply (parse_codes_of_joined ["000216"; "320007"; "000216"]).
  repeat constructor.
Defined.

(** ** The patterns of the JSONP answers *)

Lemma string_app_cons x (a b : string) :
  (String x a ++ b)%string = String x (a ++ b)%string.
Proof. reflexivity. Qed.

Lemma string_app_nil (b : string) : (EmptyString ++ b)%string = b.
Proof. reflexivity. Qed.

Lemma string_app_assoc (a b c : string) : ((a ++ b) ++ c = a ++ (b ++ c))%string.
Proof. induction a as [|x a IH]; [done|]. rewrite !string_app_cons. by f_equal. Qed.

Lemma strip_prefix_spec p s rest : strip_prefix p s = Some rest <-> s = (p ++ rest)%string.
Proof.
  revert s. induction p as [|a p IH]; intros s;
    rewrite ?string_app_cons, ?string_app_nil; simpl.
  - split; [by intros [= ->] | by intros ->].
  - destruct s as [|b s]; [split; discriminate|].
    destruct (Ascii.eqb_spec a b) as [->|Hne].
    + rewrite IH. split; [by intros -> | by intros [= ->]].
    + split; [discriminate | intros [= ? ?]; congruence].
Qed.



Lemma first_line_app g t :
  one_line g = true -> first_line (g ++ t)%string = (g ++ first_line t)%string.
Proof.
  induction g as [|c g IH]; [done|]. rewrite !string_app_cons. simpl.
  intros [Hc Hg]%andb_true_iff. apply negb_true_iff in Hc. by rewrite Hc, (IH Hg).
Qed.



Lemma before_last_paren_app g tail :
  is_Some (before_last_paren (g ++ String ")" tail)%string)
  /\ (has_paren tail = false ->
      before_last_paren (g ++ String ")" tail)%string = Some g).
Proof.
  assert (Htail : has_paren tail = false -> before_last_paren tail = None).
  { clear g. induction tail as [|d t IH]; [done|]. simpl.
    intros [Hd Ht]%orb_false_iff. by rewrite (IH Ht), Hd. }
  induction g as [|c g [IH1 IH2]]; rewrite ?string_app_cons, ?string_app_nil; simpl.
  - split.
    + destruct (before_last_paren tail); by eexists.
    + intros Ht. by rewrite (Htail Ht).
  - split.
    + destruct IH1 as [g' ->]. by eexists.
    + intros Ht. by rewrite (IH2 Ht).
Qed.




Lemma re_search_jsonp_eq (name payload post : string) :
  one_line payload = true ->
  has_paren (first_line post) = false ->
  re_search name (name ++ "(" ++ payload ++ ")" ++ post)%string = Some payload.
Proof.
  intros Hline Hpost.
  assert (Hm : match_at name (name ++ "(" ++ payload ++ ")" ++ post)%string
               = Some payload).
  { unfold match_at.
    assert (E : strip_prefix (name ++ "(") (name ++ "(" ++ payload ++ ")" ++ post)%string
                = Some (payload ++ ")" ++ post)%string).
    { apply strip_prefix_spec. by rewrite string_app_assoc. }
    rewrite E, (first_line_app _ _ Hline). simpl.
    destruct (Ascii.eqb ")" "010") eqn:Hp; [done|].
    by apply before_last_paren_app. }
  destruct (name ++ "(" ++ payload ++ ")" ++ post)%string; simpl; by rewrite Hm.
Qed.

(** X15. A JSONP answer gives back its payload. In a text that is the
    callback name, the payload in parentheses and a rest, the group found is
    the payload itself, parentheses inside it included, as long as the
    payload has no line feed and the rest has no closing parenthesis on its
    first line. *)
Theorem re_search_jsonp (name payload post : string) :
  one_line payload = true ->
  has_paren (first_line post) = false ->
  re_search name (name ++ "(" ++ payload ++ ")" ++ post)%string = Some payload.
Proof. apply re_search_jsonp_eq. Qed.

Lemma re_search_jsonp_witness :
  re_search "jsonpgz" "jsonpgz({(1.5)});" = Some "{(1.5)}".
Proof.
  apply (re_search_jsonp "jsonpgz" "{(1.5)}" ";"); reflexivity.
Defined.

(** ** The bodies of the adapters *)

(** X16. When [fetch_eastmoney_detail] returns a dict. It does exactly
    when the answer decodes to an object whose ['Datas'] is a list that is
    not empty and starts with an object whose three numbers convert. In
    every other case the adapter returns [None]. *)
Theorem detail_body_returns (float_of_str : string -> option float)
    (code : string) (response : Outcome pyval) (r : DetailDict) :
  try_or_None (detail_body float_of_str code response) = Some r <->
  exists d x rest,
    response = Ok (PDict d)
    /\ dict_get d "Datas" PNone = PList (PDict x :: rest)
    /\ detail_dict float_of_str code x = Ok r.
Proof.
  split.
  - unfold detail_body. destruct response as [data|e]; [|done].
    destruct data as [|b|n|s|l|d]; try done. cbn [as_dict].
    destruct (dict_get d "Datas" PNone) as [|b|n|s|l|dd] eqn:E; try done.
    + destruct (truthy (PBool b)); done.
    + destruct (truthy (PNum n)); done.
    + destruct s as [|c s]; [done|]. done.
    + destruct l as [|x rest]; [done|]. cbn [truthy item0].
      cbv [mbind Outcome_bind]. destruct x as [|b|n|s|l|x]; try done.
      cbn [as_dict]. destruct (detail_dict float_of_str code x) as [r'|e] eqn:Hd; [|done].
      intros [= <-]. by exists d, x, rest.
    + destruct dd; done.
  - intros (d & x & rest & -> & Hdatas & Hd). unfold detail_body. cbn [as_dict].
    rewrite Hdatas. cbn [truthy item0]. cbv [mbind Outcome_bind]. cbn [as_dict].
    by rewrite Hd.
Qed.

(** X17. When [fetch_eastmoney_nav] returns a dict. It does exactly when
    the request succeeded, the pattern matched, the group decodes to an
    object, ['Data'] in it is an object, ['LSJZList'] in that is a list
    that is not empty and starts with an object, and the three numbers of
    that object convert. In every other case the adapter returns [None]. *)
Theorem nav_body_returns (float_of_str : string -> option float)
    (json_loads : string -> Outcome pyval)
    (response : Outcome string) (r : NavDict) :
  try_or_None (nav_body float_of_str json_loads response) = Some r <->
  exists text group d inner latest rest,
    response = Ok text
    /\ re_search "jQuery" text = Some group
    /\ json_loads group = Ok (PDict d)
    /\ dict_get d "Data" (PDict []) = PDict inner
    /\ dict_get inner "LSJZList" PNone = PList (PDict latest :: rest)
    /\ nav_dict float_of_str latest = Ok r.
Proof.
  split.
  - unfold nav_body. destruct response as [text|e]; [|done].
    destruct (re_search "jQuery" text) as [group|] eqn:Hs; [|done].
    cbv [mbind Outcome_bind mret Outcome_ret].
    destruct (json_loads group) as [data|e] eqn:Hj; [|done].
    destruct data as [|b|n|s|l|d]; try done. cbn [as_dict].
    destruct (dict_get d "Data" (PDict [])) as [|b|n|s|l|inner] eqn:Hdata; try done.
    cbn [as_dict].
    destruct (dict_get inner "LSJZList" PNone) as [|b|n|s|l|dd] eqn:E; try done.
    + destruct (truthy (PBool b)); done.
    + destruct (truthy (PNum n)); done.
    + destruct s as [|c s]; [done|]. done.
    + destruct l as [|x rest]; [done|]. cbn [truthy item0].
      destruct x as [|b|n|s|l|x]; try done.
      cbn [as_dict]. destruct (nav_dict float_of_str x) as [r'|e] eqn:Hd; [|done].
      intros [= <-]. by exists text, group, d, inner, x, rest.
    + destruct dd; done.
  - intros (text & group & d & inner & latest & rest & -> & Hs & Hj & Hdata & Hl & Hd).
    unfold nav_body. rewrite Hs. cbv [mbind Outcome_bind mret Outcome_ret].
    rewrite Hj. cbn [as_dict]. rewrite Hdata. cbn [as_dict]. rewrite Hl.
    cbn [truthy item0 as_dict]. by rewrite Hd.
Qed.

(** X18. [fetch_tiantian_estimate] on a JSONP answer. On such an answer
    the adapter returns the dict built from the decoded payload when the
    payload decodes to an object whose three numbers convert, and [None]
    otherwise (the payload does not decode, is not an object, or a number
    does not convert). An empty object gives a dict of the requested code
    with all numbers [0.0]. *)
Theorem tiantian_body_jsonp (float_of_str : string -> option float)
    (json_loads : string -> Outcome pyval) (code payload post : string) :
  one_line payload = true ->
  has_paren (first_line post) = false ->
  try_or_None (tiantian_body float_of_str json_loads code
                 (Ok ("jsonpgz(" ++ payload ++ ")" ++ post)%string)) =
    match json_loads payload with
    | Ok (PDict d) =>
        match estimate_dict float_of_str code d with
        | Ok r => Some r
        | Raise _ => None
        end
    | _ => None
    end.
Proof.
  intros Hline Hpost. unfold tiantian_body.
  pose proof (re_search_jsonp_eq "jsonpgz" payload post Hline Hpost) as Hs.
  change ("jsonpgz" ++ "(" ++ payload ++ ")" ++ post)%string
    with ("jsonpgz(" ++ payload ++ ")" ++ post)%string in Hs.
  rewrite Hs.
  cbv [mbind Outcome_bind].
  destruct (json_loads payload) as [data|e]; [|done].
  destruct data as [|b|n|s|l|d]; try done. cbn [as_dict].
  by destruct (estimate_dict float_of_str code d).
Qed.

Lemma tiantian_body_jsonp_witness :
  try_or_None (tiantian_body no_str toy_loads "000216" (Ok "jsonpgz({});")) =
    Some {| est_code := PStr "000216"; est_name := PStr "";
            est_dwjz := 0%float; est_gsz := 0%float; est_gszzl := 0%float;
            est_gztime := PStr "" |}.
Proof.
  exact (tiantian_body_jsonp no_str toy_loads "000216" "{}" ";" eq_refl eq_refl).
Defined.

(** ** The adapters of [FundAPI] and [fetch_batch] *)



(** X20. When [FundAPI.fetch_ant_fund] returns a dict. It does exactly
    when the answer decodes to an object whose ['success'] is truthy and
    whose ['result'] is an object that is not empty and whose three numbers
    convert. An empty ['result'] gives [None]. *)
Theorem api_ant_body_returns (float_of_str : string -> option float)
    (code : string) (response : Outcome pyval) (r : list (string * pyval)) :
  try_or_None (api_ant_body float_of_str code response) = Some r <->
  exists d res,
    response = Ok (PDict d)
    /\ truthy (dict_get d "success" PNone) = true
    /\ dict_get d "result" PNone = PDict res
    /\ res <> []
    /\ api_ant_dict float_of_str code res = Ok r.
Proof.
  split.
  - unfold api_ant_body. destruct response as [data|e]; [|done].
    destruct data as [|b|n|s|l|d]; try done. cbn [as_dict].
    destruct (truthy (dict_get d "success" PNone)) eqn:Hs; [|done].
    destruct (dict_get d "result" PNone) as [|b|n|s|l|res] eqn:E; try done.
    + destruct (truthy (PBool b)); done.
    + destruct (truthy (PNum n)); done.
    + destruct (truthy (PStr s)); done.
    + destruct (truthy (PList l)); done.
    + destruct res as [|p res]; [done|]. cbn [truthy andb as_dict].
      cbv [mbind Outcome_bind].
      destruct (api_ant_dict float_of_str code (p :: res)) as [r'|e] eqn:Hd; [|done].
      intros [= <-]. by exists d, (p :: res).
  - intros (d & res & -> & Hs & Hres & Hne & Hd). unfold api_ant_body. cbn [as_dict].
    rewrite Hs, Hres. destruct res as [|p res]; [done|].
    cbn [truthy andb as_dict]. cbv [mbind Outcome_bind]. by rewrite Hd.
Qed.

Section FetchBatchFacts.
Context {Dict : Type}.
Variable bodies : nat -> Source -> Body Dict.
Variable as_completed :
  nat -> list (Source * Outcome (option Dict)) -> list (Source * Outcome (option Dict)).
Hypothesis as_completed_perm : forall i futures, as_completed i futures ≡ₚ futures.

Lemma fetch_fund_data_api i code w :
  fetch_fund_data (api_adapter (bodies i)) (as_completed i) code w =
  (gather (as_completed i (api_futures (bodies i))),
   {| cache := cache w; requests := requests w ++ sent_by_api code |}).
Proof.
  unfold fetch_fund_data, api_futures, sent_by_api, all_sources.
  cbv [submit_tasks api_adapter send_request mbind M_bind mret M_ret].
  cbn [cache requests]. rewrite <- !(assoc_L (++)). reflexivity.
Qed.

Lemma api_results_dom i :
  dom (gather (as_completed i (api_futures (bodies i))))
  = list_to_set (source_name <$> all_sources).
Proof.
  unfold gather. rewrite gather_acc_dom, dom_empty_L, (left_id_L ∅ (∪)).
  apply list_to_set_perm_L. by rewrite as_completed_perm.
Qed.

Lemma api_results_lookup i s :
  gather (as_completed i (api_futures (bodies i))) !! source_name s
  = Some (try_or_None (bodies i s)).
Proof.
  unfold gather.
  rewrite (gather_acc_lookup _ ∅ s (Ok (try_or_None (bodies i s)))); [done| |].
  - rewrite as_completed_perm. by apply (bool_decide_unpack _).
  - rewrite as_completed_perm. unfold api_futures.
    apply list_elem_of_fmap. exists s. split; [done|].
    apply list_elem_of_In. destruct s; simpl; tauto.
Qed.

Lemma fetch_batch_from_spec i codes
    (acc : gmap string (gmap string (option Dict))) w :
  let out := fetch_batch_from (fun i => api_adapter (bodies i)) as_completed i codes acc w in
  dom out.1 = dom acc ∪ list_to_set codes
  /\ (forall code results, out.1 !! code = Some results ->
        acc !! code = Some results
        \/ exists j, (i <= j)%nat /\ codes !! (j - i)%nat = Some code
             /\ results = gather (as_completed j (api_futures (bodies j))))
  /\ (forall j code, codes !! j = Some code ->
        (forall k, (j < k)%nat -> codes !! k <> Some code) ->
        out.1 !! code
        = Some (gather (as_completed (i + j) (api_futures (bodies (i + j))))))
  /\ out.2 = {| cache := cache w;
                requests := requests w ++ concat (sent_by_api <$> codes) |}.
Proof.
  revert i acc w. induction codes as [|code rest IH]; intros i acc w out.
  - unfold out. cbn [fetch_batch_from]. cbv [mret M_ret]. cbn [fst snd].
    split; [|split; [|split]].
    + by rewrite list_to_set_nil, (right_id_L ∅ (∪)).
    + intros code results H. by left.
    + intros j code H. done.
    + rewrite fmap_nil. cbn [concat]. rewrite (right_id_L [] (++)). by destruct w.
  - unfold out. cbn [fetch_batch_from]. cbv [mbind M_bind].
    rewrite fetch_fund_data_api.
    set (res := gather (as_completed i (api_futures (bodies i)))).
    set (w1 := {| cache := cache w; requests := requests w ++ sent_by_api code |}).
    destruct (IH (S i) (<[code := res]> acc) w1) as (Hdom & Hval & Hlast & Hw).
    split; [|split; [|split]].
    + rewrite Hdom, dom_insert_L, list_to_set_cons.
      by rewrite (comm_L (∪) {[code]} (dom acc)), <- (assoc_L (∪)).
    + intros c results Hc. destruct (Hval c results Hc) as [Hacc | (j & Hj & Hcj & ->)].
      * rewrite lookup_insert in Hacc. case_decide as Heq.
        -- right. exists i. split; [lia|]. rewrite Nat.sub_diag. simpl.
           split; [by subst|]. by injection Hacc as <-.
        -- by left.
      * right. exists j. split; [lia|]. split; [|done].
        replace (j - i)%nat with (S (j - S i)) by lia. done.
    + intros j c Hj Hnone. destruct j as [|j].
      * simpl in Hj. injection Hj as ->. rewrite Nat.add_0_r.
        destruct ((fetch_batch_from (fun i => api_adapter (bodies i)) as_completed
                     (S i) rest (<[c := res]> acc) w1).1 !! c) as [results|] eqn:E.
        -- destruct (Hval c results E) as [Hacc | (j & Hj & Hcj & _)].
           ++ by rewrite lookup_insert_eq in Hacc.
           ++ exfalso. apply (Hnone (S (j - S i)) ltac:(lia)). done.
        -- assert (Hin : c ∈ dom (fetch_batch_from (fun i => api_adapter (bodies i))
                     as_completed (S i) rest (<[c := res]> acc) w1).1).
           { rewrite Hdom, dom_insert_L. apply elem_of_union. left.
             apply elem_of_union. left. by apply elem_of_singleton. }
           apply elem_of_dom in Hin as [? Hin]. congruence.
      * simpl in Hj. rewrite (Hlast j c Hj).
        -- by replace (S i + j)%nat with (i + S j)%nat by lia.
        -- intros k Hk. apply (Hnone (S k)). lia.
    + rewrite Hw. unfold w1. cbn [cache requests]. rewrite fmap_cons. cbn [concat].
      by rewrite (assoc_L (++)).
Qed.

End FetchBatchFacts.

(** X21. [FundAPI.fetch_batch]. Whatever order the futures of each code
    complete in, the result has exactly the distinct codes of the list as
    keys; every value has the four source names as keys; the value of a
    code holds, for each source, what the adapter returned at the last
    position the code has in the list; four requests are sent for every
    position of the list, repeats included, in the order of the list; and
    the cache of the server is not touched. *)
Theorem fetch_batch_fetches_every_code {Dict : Type}
    (bodies : nat -> Source -> Body Dict)
    (as_completed : nat -> list (Source * Outcome (option Dict)) ->
                    list (Source * Outcome (option Dict)))
    (codes : list string) (w : World) :
  (forall i futures, as_completed i futures ≡ₚ futures) ->
  let out := fetch_batch (fun i => api_adapter (bodies i)) as_completed codes w in
  dom out.1 = list_to_set codes
  /\ (forall code results, out.1 !! code = Some results ->
        dom results = list_to_set (source_name <$> all_sources))
  /\ (forall j code, codes !! j = Some code ->
        (forall k, (j < k)%nat -> codes !! k <> Some code) ->
        exists results, out.1 !! code = Some results
          /\ forall s, results !! source_name s = Some (try_or_None (bodies j s)))
  /\ requests out.2 = requests w ++ concat (sent_by_api <$> codes)
  /\ cache out.2 = cache w.
Proof.
  intros Hperm out.
  destruct (fetch_batch_from_spec bodies as_completed 0 codes ∅ w)
    as (Hdom & Hval & Hlast & Hw).
  fold (fetch_batch (fun i => api_adapter (bodies i)) as_completed codes) in *.
  fold out in Hdom, Hval, Hlast, Hw.
  split; [|split; [|split; [|split]]].
  - by rewrite Hdom, dom_empty_L, (left_id_L ∅ (∪)).
  - intros code results Hc. destruct (Hval code results Hc) as [H | (j & _ & _ & ->)].
    + by rewrite lookup_empty in H.
    + by apply api_results_dom.
  - intros j code Hj Hnone. eexists. split; [by apply (Hlast j code Hj Hnone)|].
    intros s. by apply api_results_lookup.
  - by rewrite Hw.
  - by rewrite Hw.
Qed.

Lemma fetch_batch_fetches_every_code_witness :
  dom (fetch_batch (fun _ => api_adapter api_bodies) (fun _ => reverse)
         ["000216"; "320007"; "000216"] world0).1
  = list_to_set ["000216"; "320007"; "000216"]
  /\ requests (fetch_batch (fun _ => api_adapter api_bodies) (fun _ => reverse)
                 ["000216"; "320007"; "000216"] world0).2
     = sent_by_api "000216" ++ sent_by_api "320007" ++ sent_by_api "000216".
Proof.
  destruct (fetch_batch_fetches_every_code (fun _ => api_bodies) (fun _ => reverse)
              ["000216"; "320007"; "000216"] world0
              (fun _ futures => reverse_Permutation futures))
    as (Hdom & _ & _ & Hreq & _).
  split; [exact Hdom | exact Hreq].
Defined.
